(** * Directory reconciliation engine (go-ldap-data-sync/main.go)

    A shallow embedding of the batch synchronizer that copies roles,
    resources and role-resource associations from the directory into the
    relational store, and of its mark-and-purge lifecycle pass.

    - Go strings are byte sequences: [string] (a list of [ascii] bytes).
    - The store is a record of four tables; the three entity tables are
      finite maps keyed by [dn] (the primary key), the junction table a
      finite set of pairs (its primary key is the pair itself).
    - Timestamps are [Z] seconds: every timestamp the program writes or
      compares goes through [Format(time.RFC3339)], which has a resolution
      of one second.  The calendar arithmetic of [time.AddDate] and the
      store's reading of the text it is given are part of the interface
      below.
    - A transaction is a run in the [option] monad over a working copy of
      the store: [None] is a failed statement (rollback), [Some] the state
      to commit. *)

From stdpp Require Import gmap strings list fin_maps.
From Stdlib Require Import ZArith Ascii String.

Open Scope string_scope.
Open Scope Z_scope.
#[local] Set Warnings "-clear-no-such-hyp".

(** ** Go's [strings] package, for the one-byte separators the program uses *)

Module GoStrings.

(** [strings.Index(s, sep)] for a one-byte [sep], returned the way
    [genSplit] consumes it: [s[:m]] and [s[m+1:]], or [None] when the
    byte does not occur. *)
Fixpoint cutAt (c : ascii) (s : string) : option (string * string) :=
  match s with
  | EmptyString => None
  | String a s' =>
      if Ascii.eqb a c then Some (EmptyString, s')
      else match cutAt c s' with
           | Some (before, after) => Some (String a before, after)
           | None => None
           end
  end.

(** [strings.Count(s, sep)] for a one-byte [sep]. *)
Fixpoint Count (s : string) (c : ascii) : nat :=
  match s with
  | EmptyString => 0%nat
  | String a s' => ((if Ascii.eqb a c then 1 else 0) + Count s' c)%nat
  end.

(** [strings.Contains(s, sep)]: [Index(s, sep) >= 0]. *)
Definition Contains (s : string) (c : ascii) : bool :=
  match cutAt c s with Some _ => true | None => false end.

(** The loop of [genSplit]: at most [k] further cuts, then the rest. *)
Fixpoint genSplit_loop (c : ascii) (k : nat) (s : string) : list string :=
  match k with
  | O => [s]
  | S k' =>
      match cutAt c s with
      | None => [s]
      | Some (before, after) => before :: genSplit_loop c k' after
      end
  end.

(** [strings.SplitN(s, sep, n)] ([genSplit(s, sep, 0, n)]) for a one-byte
    [sep]: [n = 0] gives no parts, [n < 0] all of them, [n > 0] at most
    [n] with the last one the unsplit rest. *)
Definition SplitN (s : string) (c : ascii) (n : Z) : list string :=
  if n =? 0 then []
  else
    let n1 := if n <? 0 then Z.of_nat (Count s c) + 1 else n in
    let n2 := if Z.of_nat (String.length s) + 1 <? n1
              then Z.of_nat (String.length s) + 1 else n1 in
    genSplit_loop c (Z.to_nat (n2 - 1)) s.

(** [strings.Split(s, sep)] is [genSplit(s, sep, 0, -1)]. *)
Definition Split (s : string) (c : ascii) : list string := SplitN s c (-1).

(** [strings.Join(elems, sep)]. *)
Fixpoint Join (elems : list string) (sep : string) : string :=
  match elems with
  | [] => EmptyString
  | [x] => x
  | x :: rest => x ++ sep ++ Join rest sep
  end.

(** The scan of [strings.Replace(s, old, new, -1)] for a non-empty
    [old]: non-overlapping occurrences, leftmost first.  [skip] counts
    the bytes of a matched occurrence that are still to be passed. *)
Fixpoint replace_scan (old new : string) (skip : nat) (s : string) : string :=
  match s with
  | EmptyString => EmptyString
  | String a s' =>
      match skip with
      | S k => replace_scan old new k s'
      | O =>
          if String.prefix old s
          then new ++ replace_scan old new (String.length old - 1) s'
          else String a (replace_scan old new 0 s')
      end
  end.

(** [strings.ReplaceAll(s, old, new)].  Every call of the program passes
    a non-empty [old]; Go's treatment of an empty [old] (insertion around
    every UTF-8 sequence) is outside this model, which then leaves [s]
    as it is. *)
Definition ReplaceAll (s old new : string) : string :=
  match old with
  | EmptyString => s
  | _ => if String.eqb old new then s else replace_scan old new 0 s
  end.

(** [l[i]] on a slice of strings whose index is in range at the call
    site (the lemmas on [SplitN] give the lengths). *)
Definition elemAt (l : list string) (i : nat) : string := nth i l EmptyString.

End GoStrings.

Import GoStrings.

(** ** Attribute decoders *)

(** [parseLocalizedAttributes]: the loop body, one segment. *)
Definition parseLocalizedPart (result : gmap string string) (part : string)
  : gmap string string :=
  if Contains part "~"%char
  then let split := SplitN part "~"%char 2 in
       <[elemAt split 0 := elemAt split 1]> result
  else result.

(** [parseLocalizedAttributes] (main.go, lines 726-739). *)
Definition parseLocalizedAttributes (localizedString : string) : gmap string string :=
  let result : gmap string string := ∅ in
  if String.eqb localizedString EmptyString then result
  else
    let parts := Split localizedString "|"%char in
    fold_left parseLocalizedPart parts result.

(** ** Directory entries (go-ldap's [Entry]) *)

Record Entry := {
  DN : string;
  Attributes : list (string * list string)
}.

(** [Entry.GetAttributeValues]: the values of the first attribute of that
    name, or the empty slice. *)
Fixpoint attributeValues (attrs : list (string * list string)) (attribute : string)
  : list string :=
  match attrs with
  | [] => []
  | (name, values) :: rest =>
      if String.eqb name attribute then values else attributeValues rest attribute
  end.

Definition GetAttributeValues (e : Entry) (attribute : string) : list string :=
  attributeValues (Attributes e) attribute.

(** [Entry.GetAttributeValue]: the first value, or the empty string. *)
Definition GetAttributeValue (e : Entry) (attribute : string) : string :=
  match GetAttributeValues e attribute with
  | [] => EmptyString
  | v :: _ => v
  end.

(** ** Decoded structures *)

(** [EntitlementRefXML]: the [ref] element of nrfEntitlementRef. *)
Record EntitlementRefXML := {
  Src : string;
  ID : string;
  Param : string
}.

(** [EntitlementParamJSON]: the JSON object inside [Param]. *)
Record EntitlementParamJSON := {
  param_ID : string;
  param_ID2 : string;
  param_ID3 : string
}.

(** [DynamicParmValsXML]: the [parameter] element of nrfDynamicParmVals. *)
Record DynamicParmValsXML := {
  Value : string
}.

(** ** What the program consumes from outside

    [encoding/xml], [encoding/json], [time] and the store's own refusal
    of a statement are not code of this program.  They are an interface
    here; a decoder result of [None] is the [err != nil] of the Go call. *)

Class Externals := {
  (** the dynamic value [json.Unmarshal] stores in an [interface{}] *)
  JSONValue : Type;
  (** [xml.Unmarshal(.., &ref)] into [EntitlementRefXML] *)
  xmlUnmarshalRef : string → option EntitlementRefXML;
  (** [json.Unmarshal(.., &param)] into [EntitlementParamJSON] *)
  jsonUnmarshalParam : string → option EntitlementParamJSON;
  (** [xml.Unmarshal(.., &dynamicParmValsXML)] *)
  xmlUnmarshalParm : string → option DynamicParmValsXML;
  (** [json.Unmarshal(.., &jsonValue)] with [jsonValue interface{}] *)
  jsonUnmarshal : string → option JSONValue;
  (** [json.Marshal(jsonValue)] *)
  jsonMarshal : JSONValue → option string;
  (** [json.Marshal] of a [map[string]string]; its error is ignored by the
      program and cannot occur for this type *)
  jsonMarshalMap : gmap string string → string;
  (** whether the store refuses a statement on the named table for these
      text parameters (a value it cannot store, such as a text with the
      byte 0); the foreign keys are not part of it, they are in the model
      of the statements *)
  refused : string → list string → bool;
  (** the parameter of the DELETE statements of [markAndPurge]:
      [syncStartTimestamp.AddDate(0, 0, -purgeAgeInDays)], a shift by
      calendar days in the local zone, written with
      [Format(time.RFC3339)] and read by the store.  [Some bound] is the
      instant the store reads; [None] is a text the store refuses (a date
      outside its range), the [err != nil] of every DELETE that carries
      it *)
  purgeTimestamp : Z → Z → option Z;
  (** [encoding/json]: a value that [Unmarshal] produced is marshalled
      without error, *)
  jsonMarshal_decoded :
    ∀ s j, jsonUnmarshal s = Some j → is_Some (jsonMarshal j);
  (** and its serialization decodes to the same value again. *)
  jsonMarshal_roundtrip :
    ∀ s j out, jsonUnmarshal s = Some j → jsonMarshal j = Some out →
               jsonUnmarshal out = Some j
}.

(** The byte 0x22, the replacement for the quot entity. *)
Definition quote : string := String (ascii_of_nat 34) EmptyString.

Section Decoders.
Context `{Externals}.

(** The eight entitlement columns of a resource. *)
Record EntitlementFields := {
  entitlementDriver : string;
  entitlementStatus : string;
  entitlementXML : string;
  entitlementXMLSrc : string;
  entitlementXMLID : string;
  entitlementXMLParamID : string;
  entitlementXMLParamID2 : string;
  entitlementXMLParamID3 : string
}.

(** Step 3 of the entitlement decoding (main.go, lines 587-601): the
    three parameter ids out of [ref.Param]. *)
Definition decodeEntitlementParam (param : string) : string * string * string :=
  if String.eqb param EmptyString then (EmptyString, EmptyString, EmptyString)
  else match jsonUnmarshalParam param with
       | Some p => (param_ID p, param_ID2 p, param_ID3 p)
       | None => (param, EmptyString, EmptyString)
       end.

(** The entitlement-reference decoding inside [syncResources]
    (main.go, lines 562-603). *)
Definition decodeEntitlementRef (nrfEntitlementRef : string) : EntitlementFields :=
  let refParts := SplitN nrfEntitlementRef "#"%char 3 in
  let driver := if (0 <? List.length refParts)%nat then elemAt refParts 0 else EmptyString in
  let status := if (1 <? List.length refParts)%nat then elemAt refParts 1 else EmptyString in
  let xml := if (2 <? List.length refParts)%nat then elemAt refParts 2 else EmptyString in
  let unset := (EmptyString, EmptyString, (EmptyString, EmptyString, EmptyString)) in
  let '(src, id, (p1, p2, p3)) :=
    if String.eqb xml EmptyString then unset
    else match xmlUnmarshalRef xml with
         | Some ref => (Src ref, ID ref, decodeEntitlementParam (Param ref))
         | None => unset
         end in
  {| entitlementDriver := driver;
     entitlementStatus := status;
     entitlementXML := xml;
     entitlementXMLSrc := src;
     entitlementXMLID := id;
     entitlementXMLParamID := p1;
     entitlementXMLParamID2 := p2;
     entitlementXMLParamID3 := p3 |}.

(** The three [strings.ReplaceAll] calls of [syncAssociations]
    (main.go, lines 699-701). *)
Definition unescapeEntities (value : string) : string :=
  let value := ReplaceAll value "&quot;" quote in
  let value := ReplaceAll value "&lt;" "<" in
  ReplaceAll value "&gt;" ">".

(** The dynamic-parameter decoding inside [syncAssociations]
    (main.go, lines 693-712): the value of the column
    nrfdynamicparmvals_value_json. *)
Definition decodeDynamicParmVals (nrfDynamicParmVals : string) : string :=
  if String.eqb nrfDynamicParmVals EmptyString then EmptyString
  else match xmlUnmarshalParm nrfDynamicParmVals with
       | None => EmptyString
       | Some dynamicParmValsXML =>
           let value := unescapeEntities (Value dynamicParmValsXML) in
           match jsonUnmarshal value with
           | None => EmptyString
           | Some jsonValue =>
               match jsonMarshal jsonValue with
               | Some jsonBytes => jsonBytes
               | None => EmptyString
               end
           end
       end.

End Decoders.

(** ** The relational store (createTables, main.go lines 266-340) *)

(** A row of an entity table without its key: the attribute columns and
    the three lifecycle columns every entity table declares. *)
Record Row (A : Type) := mkRow {
  cols : A;
  created_at : Z;
  updated_at : Z;
  is_deleted : bool
}.
Arguments mkRow {A} _ _ _ _.
Arguments cols {A} _.
Arguments created_at {A} _.
Arguments updated_at {A} _.
Arguments is_deleted {A} _.

(** viz_roles *)
Record RoleCols := {
  nrfRoleLevel : string;
  role_nrfLocalizedNames : string;
  role_nrfLocalizedDescrs : string;
  nrfRoleCategoryKey : string
}.

(** viz_resources *)
Record ResourceCols := {
  res_nrfLocalizedNames : string;
  res_nrfLocalizedDescrs : string;
  nrfCategoryKey : string;
  nrfAllowMulti : string;
  entitlement : EntitlementFields
}.

(** viz_roles_resources *)
Record AssocCols := {
  nrfRole : string;
  nrfResource : string;
  nrfDynamicParmVals : string;
  nrfdynamicparmvals_value_json : string;
  nrfStatus : string;
  createTimestamp : string;
  modifyTimestamp : string
}.

Record DB := mkDB {
  viz_roles : gmap string (Row RoleCols);
  (** viz_roles_parents: pairs (child_dn, parent_dn) *)
  viz_roles_parents : gset (string * string);
  viz_resources : gmap string (Row ResourceCols);
  viz_roles_resources : gmap string (Row AssocCols)
}.

Definition emptyDB : DB := mkDB ∅ ∅ ∅ ∅.

(** ** SQL statements *)

(** [INSERT INTO t (dn, .., created_at, updated_at, is_deleted)
     VALUES (.., p_created, p_updated, p_deleted)
     ON CONFLICT (dn) DO UPDATE SET <every attribute column> = EXCLUDED..,
       updated_at = p_updated, is_deleted = FALSE].
    The three upserts of the program have this shape; each one lists all
    the attribute columns of its table in the SET clause. *)
Definition upsert {A} (dn : string) (c : A) (p_created p_updated : Z)
    (p_deleted : bool) (t : gmap string (Row A)) : gmap string (Row A) :=
  match t !! dn with
  | None => <[dn := mkRow c p_created p_updated p_deleted]> t
  | Some old => <[dn := mkRow c (created_at old) p_updated false]> t
  end.

(** [UPDATE t SET is_deleted = TRUE WHERE updated_at < ts] *)
Definition markRow {A} (ts : Z) (r : Row A) : Row A :=
  if bool_decide (updated_at r < ts)
  then mkRow (cols r) (created_at r) (updated_at r) true
  else r.

Definition markStale {A} (ts : Z) (t : gmap string (Row A)) : gmap string (Row A) :=
  markRow ts <$> t.

(** The WHERE clause of
    [DELETE FROM t WHERE is_deleted = TRUE AND updated_at < purgeTs]. *)
Definition purgeable {A} (purgeTs : Z) (r : Row A) : bool :=
  is_deleted r && bool_decide (updated_at r < purgeTs).

Definition purgeOld {A} (purgeTs : Z) (t : gmap string (Row A)) : gmap string (Row A) :=
  filter (λ kv : string * Row A, purgeable purgeTs (kv.2) = false) t.

(** The keys that the DELETE removes. *)
Definition purgedKeys {A} (purgeTs : Z) (t : gmap string (Row A)) : gset string :=
  dom (filter (λ kv : string * Row A, purgeable purgeTs (kv.2) = true) t).

(** [ON DELETE CASCADE] of both columns of viz_roles_parents: a junction
    row goes with either role it references. *)
Definition cascade (deleted : gset string) (parents : gset (string * string))
  : gset (string * string) :=
  filter (λ cp : string * string, (cp.1 ∉ deleted) ∧ (cp.2 ∉ deleted)) parents.

(** A [for .. range] loop whose body may fail: the first failure ends it. *)
Fixpoint forEach {A S} (body : A → S → option S) (l : list A) (s : S) : option S :=
  match l with
  | [] => Some s
  | x :: rest =>
      match body x s with
      | None => None
      | Some s' => forEach body rest s'
      end
  end.

(** Twenty-four hours in seconds: the unit in which the scenarios and the
    samples below count days.  The program's own shift by days is
    [purgeTimestamp]. *)
Definition day : Z := 86400.

Section Sync.
Context `{Externals}.

(** [err == nil] after an [Exec] on [table] with these text parameters,
    foreign keys apart. *)
Definition accepted (table : string) (params : list string) : bool :=
  negb (refused table params).

(** *** syncRoles (main.go, lines 393-497) *)

(** The attribute columns computed in the body of the first loop. *)
Definition roleCols (entry : Entry) : RoleCols :=
  let nrfRoleLevel := GetAttributeValue entry "nrfRoleLevel" in
  let nrfLocalizedNames := GetAttributeValue entry "nrfLocalizedNames" in
  let nrfLocalizedDescrs := GetAttributeValue entry "nrfLocalizedDescrs" in
  let roleCategoryKeys := GetAttributeValues entry "nrfRoleCategoryKey" in
  let nrfRoleCategoryKey :=
    if (0 <? List.length roleCategoryKeys)%nat
    then Join roleCategoryKeys "|" else EmptyString in
  let localizedNamesJSON := jsonMarshalMap (parseLocalizedAttributes nrfLocalizedNames) in
  let localizedDescrsJSON := jsonMarshalMap (parseLocalizedAttributes nrfLocalizedDescrs) in
  {| nrfRoleLevel := nrfRoleLevel;
     role_nrfLocalizedNames := localizedNamesJSON;
     role_nrfLocalizedDescrs := localizedDescrsJSON;
     nrfRoleCategoryKey := nrfRoleCategoryKey |}.

Definition roleParams (entry : Entry) : list string :=
  let c := roleCols entry in
  [DN entry; nrfRoleLevel c; role_nrfLocalizedNames c;
   role_nrfLocalizedDescrs c; nrfRoleCategoryKey c].

Definition roleAccepted (entry : Entry) : bool :=
  accepted "viz_roles" (roleParams entry).

(** [roleStmt.Exec(entry.DN, .., timestampStr, timestampStr, false)] *)
Definition upsertRole (ts : Z) (entry : Entry) (tx : DB) : option DB :=
  if roleAccepted entry
  then Some (mkDB (upsert (DN entry) (roleCols entry) ts ts false (viz_roles tx))
                  (viz_roles_parents tx) (viz_resources tx) (viz_roles_resources tx))
  else None.

(** [DELETE FROM viz_roles_parents] *)
Definition deleteParents (tx : DB) : DB :=
  mkDB (viz_roles tx) ∅ (viz_resources tx) (viz_roles_resources tx).

(** [parentStmt.Exec(entry.DN, parentDN)]:
    [INSERT INTO viz_roles_parents (child_dn, parent_dn) VALUES ($1, $2)
     ON CONFLICT DO NOTHING]; both columns reference viz_roles(dn). *)
Definition insertParent (child_dn parent_dn : string) (tx : DB) : option DB :=
  if accepted "viz_roles_parents" [child_dn; parent_dn]
     && bool_decide (child_dn ∈ dom (viz_roles tx))
     && bool_decide (parent_dn ∈ dom (viz_roles tx))
  then Some (mkDB (viz_roles tx) ({[ (child_dn, parent_dn) ]} ∪ viz_roles_parents tx)
                  (viz_resources tx) (viz_roles_resources tx))
  else None.

(** The body of the second loop over the entries. *)
Definition insertParents (entry : Entry) (tx : DB) : option DB :=
  let parentRoles := GetAttributeValues entry "nrfParentRoles" in
  if (0 <? List.length parentRoles)%nat
  then forEach (insertParent (DN entry)) parentRoles tx
  else Some tx.

(** The statements between [db.Begin()] and [tx.Commit()]. *)
Definition rolesTx (entries : list Entry) (ts : Z) (tx : DB) : option DB :=
  tx1 ← forEach (upsertRole ts) entries tx;
  let tx2 := deleteParents tx1 in
  forEach insertParents entries tx2.

(** [found] is the result of [ldapSearch]; [None] is its error. *)
Definition syncRoles (found : option (list Entry)) (ts : Z) (db : DB) : DB :=
  match found with
  | None => db
  | Some entries =>
      match rolesTx entries ts db with
      | Some tx => tx   (* tx.Commit() *)
      | None => db      (* tx.Rollback() *)
      end
  end.

(** *** syncResources (main.go, lines 500-634) *)

Definition resourceCols (entry : Entry) : ResourceCols :=
  let nrfLocalizedNames := GetAttributeValue entry "nrfLocalizedNames" in
  let nrfLocalizedDescrs := GetAttributeValue entry "nrfLocalizedDescrs" in
  let nrfCategoryKey := GetAttributeValue entry "nrfCategoryKey" in
  let nrfAllowMulti := GetAttributeValue entry "nrfAllowMulti" in
  let nrfEntitlementRef := GetAttributeValue entry "nrfEntitlementRef" in
  let localizedNamesJSON := jsonMarshalMap (parseLocalizedAttributes nrfLocalizedNames) in
  let localizedDescrsJSON := jsonMarshalMap (parseLocalizedAttributes nrfLocalizedDescrs) in
  {| res_nrfLocalizedNames := localizedNamesJSON;
     res_nrfLocalizedDescrs := localizedDescrsJSON;
     nrfCategoryKey := nrfCategoryKey;
     nrfAllowMulti := nrfAllowMulti;
     entitlement := decodeEntitlementRef nrfEntitlementRef |}.

Definition resourceParams (entry : Entry) : list string :=
  let c := resourceCols entry in
  let e := entitlement c in
  [DN entry; res_nrfLocalizedNames c; res_nrfLocalizedDescrs c;
   nrfCategoryKey c; nrfAllowMulti c;
   entitlementDriver e; entitlementStatus e; entitlementXML e;
   entitlementXMLSrc e; entitlementXMLID e; entitlementXMLParamID e;
   entitlementXMLParamID2 e; entitlementXMLParamID3 e].

Definition resourceAccepted (entry : Entry) : bool :=
  accepted "viz_resources" (resourceParams entry).

(** [stmt.Exec(entry.DN, .., timestampStr, timestampStr, false)] *)
Definition upsertResource (ts : Z) (entry : Entry) (tx : DB) : option DB :=
  if resourceAccepted entry
  then Some (mkDB (viz_roles tx) (viz_roles_parents tx)
                  (upsert (DN entry) (resourceCols entry) ts ts false (viz_resources tx))
                  (viz_roles_resources tx))
  else None.

Definition resourcesTx (entries : list Entry) (ts : Z) (tx : DB) : option DB :=
  forEach (upsertResource ts) entries tx.

Definition syncResources (found : option (list Entry)) (ts : Z) (db : DB) : DB :=
  match found with
  | None => db
  | Some entries =>
      match resourcesTx entries ts db with
      | Some tx => tx
      | None => db
      end
  end.

(** *** syncAssociations (main.go, lines 637-723) *)

Definition assocCols (entry : Entry) : AssocCols :=
  let nrfRole := GetAttributeValue entry "nrfRole" in
  let nrfResource := GetAttributeValue entry "nrfResource" in
  let nrfDynamicParmVals := GetAttributeValue entry "nrfDynamicParmVals" in
  let nrfStatus := GetAttributeValue entry "nrfStatus" in
  let createTimestamp := GetAttributeValue entry "createTimestamp" in
  let modifyTimestamp := GetAttributeValue entry "modifyTimestamp" in
  {| nrfRole := nrfRole;
     nrfResource := nrfResource;
     nrfDynamicParmVals := nrfDynamicParmVals;
     nrfdynamicparmvals_value_json := decodeDynamicParmVals nrfDynamicParmVals;
     nrfStatus := nrfStatus;
     createTimestamp := createTimestamp;
     modifyTimestamp := modifyTimestamp |}.

Definition assocParams (entry : Entry) : list string :=
  let c := assocCols entry in
  [DN entry; nrfRole c; nrfResource c; nrfDynamicParmVals c;
   nrfdynamicparmvals_value_json c; nrfStatus c; createTimestamp c;
   modifyTimestamp c].

Definition assocAccepted (entry : Entry) : bool :=
  accepted "viz_roles_resources" (assocParams entry).

(** [stmt.Exec(entry.DN, .., timestampStr, timestampStr, false)] *)
Definition upsertAssociation (ts : Z) (entry : Entry) (tx : DB) : option DB :=
  if assocAccepted entry
  then Some (mkDB (viz_roles tx) (viz_roles_parents tx) (viz_resources tx)
                  (upsert (DN entry) (assocCols entry) ts ts false (viz_roles_resources tx)))
  else None.

Definition associationsTx (entries : list Entry) (ts : Z) (tx : DB) : option DB :=
  forEach (upsertAssociation ts) entries tx.

Definition syncAssociations (found : option (list Entry)) (ts : Z) (db : DB) : DB :=
  match found with
  | None => db
  | Some entries =>
      match associationsTx entries ts db with
      | Some tx => tx
      | None => db
      end
  end.

End Sync.

(** *** markAndPurge (main.go, lines 361-390) *)

(** The first loop: one UPDATE per entity table.  Its parameter is the
    text of the watermark, the time of the run, which the store reads. *)
Definition markAll (ts : Z) (db : DB) : DB :=
  mkDB (markStale ts (viz_roles db)) (viz_roles_parents db)
       (markStale ts (viz_resources db)) (markStale ts (viz_roles_resources db)).

(** The second loop with a parameter the store accepts: one DELETE per
    entity table; the one on viz_roles cascades into viz_roles_parents. *)
Definition purgeAll (purgeTs : Z) (db : DB) : DB :=
  mkDB (purgeOld purgeTs (viz_roles db))
       (cascade (purgedKeys purgeTs (viz_roles db)) (viz_roles_parents db))
       (purgeOld purgeTs (viz_resources db))
       (purgeOld purgeTs (viz_roles_resources db)).

(** Both loops.  A DELETE that the store refuses is logged and the loop
    goes on to the next table (lines 383-386); the three statements carry
    the same parameter, so a refused parameter leaves the three tables as
    the first loop left them. *)
Definition markAndPurge `{Externals} (db : DB) (syncStartTimestamp : Z)
    (purgeAgeInDays : Z) : DB :=
  let timestamp := syncStartTimestamp in
  let marked := markAll timestamp db in
  match purgeTimestamp syncStartTimestamp purgeAgeInDays with
  | Some bound => purgeAll bound marked
  | None => marked
  end.

(** *** One run of [main] outside the dry-run mode (lines 173-182) *)

Record Directory := {
  foundRoles : option (list Entry);
  foundResources : option (list Entry);
  foundAssociations : option (list Entry)
}.

Definition run `{Externals} (dir : Directory) (syncStartTimestamp : Z)
    (purgeAgeInDays : Z) (db : DB) : DB :=
  let db := syncRoles (foundRoles dir) syncStartTimestamp db in
  let db := syncResources (foundResources dir) syncStartTimestamp db in
  let db := syncAssociations (foundAssociations dir) syncStartTimestamp db in
  markAndPurge db syncStartTimestamp purgeAgeInDays.

(** ** Configuration and entry point (main.go, lines 68-193) *)

Record config := {
  LDAPHost : string;
  LDAPPort : string;
  LDAPUser : string;
  LDAPPassword : string;
  DBHost : string;
  DBPort : string;
  DBUser : string;
  DBPassword : string;
  DBDatabase : string;
  DryRun : bool;
  PurgeAgeInDays : Z
}.

(** What the process meets outside: the environment ([os.Getenv] gives
    the empty string for a variable that is not set), [fmt.Sscan] into an
    [int] ([None] is its error), and whether each connection step of
    [main] succeeds. *)
Record Process := {
  getenv : string → string;
  Sscan : string → option Z;
  ldapDial : bool;
  ldapBind : bool;
  dbOpen : bool;
  dbPing : bool;
  tablesCreated : bool
}.

(** How [main] ends: [log.Fatal] or the last log line, with the store as
    it is then. *)
Inductive Outcome :=
| Fatal
| Finished (db : DB).

(** [initConfig] (main.go, lines 83-124); [None] is its [log.Fatal]. *)
Definition initConfig (p : Process) : option config :=
  let ldapPort := getenv p "LDAP_PORT" in
  let dbPort := getenv p "DB_PORT" in
  let dbDatabase := getenv p "DB_DATABASE" in
  let ldapPort := if String.eqb ldapPort EmptyString then "389" else ldapPort in
  let dbPort := if String.eqb dbPort EmptyString then "5432" else dbPort in
  let dbDatabase :=
    if String.eqb dbDatabase EmptyString then "idm_rolemanagement_prod" else dbDatabase in
  let purgeAgeStr := getenv p "PURGE_AGE_IN_DAYS" in
  let purgeAgeInDays :=
    if String.eqb purgeAgeStr EmptyString then 7
    else match Sscan p purgeAgeStr with
         | Some n => n
         | None => 7
         end in
  let cfg :=
    {| LDAPHost := getenv p "LDAP_HOST";
       LDAPPort := ldapPort;
       LDAPUser := getenv p "LDAP_USERNAME";
       LDAPPassword := getenv p "LDAP_PASSWORD";
       DBHost := getenv p "DB_HOST";
       DBPort := dbPort;
       DBUser := getenv p "DBUSER";
       DBPassword := getenv p "DB_PASSWORD";
       DBDatabase := dbDatabase;
       DryRun := String.eqb (getenv p "DRY_RUN") "true";
       PurgeAgeInDays := purgeAgeInDays |} in
  if String.eqb (LDAPHost cfg) EmptyString
     || String.eqb (LDAPUser cfg) EmptyString
     || String.eqb (LDAPPassword cfg) EmptyString
  then None
  else Some cfg.

(** [main] (main.go, lines 127-193).  [createTables] creates what is
    missing and leaves existing rows alone; the counting functions of the
    dry run only log. *)
Definition main `{Externals} (p : Process) (dir : Directory) (now : Z) (db : DB)
  : Outcome :=
  match initConfig p with
  | None => Fatal
  | Some cfg =>
      if negb (DryRun cfg)
         && (String.eqb (DBHost cfg) EmptyString
             || String.eqb (DBUser cfg) EmptyString
             || String.eqb (DBPassword cfg) EmptyString)
      then Fatal
      else if negb (ldapDial p) then Fatal
      else if negb (ldapBind p) then Fatal
      else if negb (DryRun cfg) then
        if negb (dbOpen p) then Fatal
        else if negb (dbPing p) then Fatal
        else if negb (tablesCreated p) then Fatal
        else
          let syncStartTimestamp := now in
          Finished (run dir syncStartTimestamp (PurgeAgeInDays cfg) db)
      else Finished db
  end.

(** ** Notions used in the statements below *)

(** A segment [k~v] whose key [k] holds no tilde. *)
Definition segment (k v : string) : string := k ++ "~" ++ v.

(** The entity decoding in the words of the specification: one pass from
    left to right that replaces the three entities quot, lt and gt and
    copies every other byte. *)
Fixpoint unescape_pass (skip : nat) (s : string) : string :=
  match s with
  | EmptyString => EmptyString
  | String a s' =>
      match skip with
      | S k => unescape_pass k s'
      | O =>
          if String.prefix "&quot;" s then quote ++ unescape_pass 5 s'
          else if String.prefix "&lt;" s then "<" ++ unescape_pass 3 s'
          else if String.prefix "&gt;" s then ">" ++ unescape_pass 3 s'
          else String a (unescape_pass 0 s')
      end
  end.

Definition unescape_spec (s : string) : string := unescape_pass 0 s.

(** The rows of a loop of upserts, run on one table. *)
Definition upsertAll {A} (colsOf : Entry → A) (ts : Z) (entries : list Entry)
    (t : gmap string (Row A)) : gmap string (Row A) :=
  fold_left (λ t e, upsert (DN e) (colsOf e) ts ts false t) entries t.

(** The last entry of the result set that carries the key [dn]. *)
Fixpoint lastWith (dn : string) (entries : list Entry) : option Entry :=
  match entries with
  | [] => None
  | e :: rest =>
      match lastWith dn rest with
      | Some e' => Some e'
      | None => if String.eqb (DN e) dn then Some e else None
      end
  end.

(** The keys of a result set. *)
Definition observed (entries : list Entry) : gset string :=
  list_to_set (DN <$> entries).

(** The (child, parent) pairs of a result set. *)
Definition parentPairs (entries : list Entry) : gset (string * string) :=
  list_to_set (e ← entries; (λ p, (DN e, p)) <$> GetAttributeValues e "nrfParentRoles").

(** A row without its updated_at column. *)
Definition withoutUpdatedAt {A} (r : Row A) : A * Z * bool :=
  (cols r, created_at r, is_deleted r).

(** Referential integrity of viz_roles_parents. *)
Definition fk_ok (db : DB) : Prop :=
  ∀ c p, (c, p) ∈ viz_roles_parents db →
         c ∈ dom (viz_roles db) ∧ p ∈ dom (viz_roles db).

Section RowFailures.
Context `{Externals}.

(** The upsert of [e] is refused. *)
Definition upsertFails (ok : Entry → bool) (e : Entry) : Prop :=
  ok e = false.

(** The insertion of the pair ([DN e], [p]) is refused or violates a
    foreign key, in a transaction started on [db] for [entries]. *)
Definition parentFails (entries : list Entry) (db : DB) (e : Entry) (p : string) : Prop :=
  accepted "viz_roles_parents" [DN e; p] = false ∨
  p ∉ dom (viz_roles db) ∪ observed entries.

Definition rolesFail (entries : list Entry) (db : DB) : Prop :=
  ∃ e, e ∈ entries ∧
    (upsertFails roleAccepted e ∨
     ∃ p, p ∈ GetAttributeValues e "nrfParentRoles" ∧ parentFails entries db e p).

Definition rowsFail (ok : Entry → bool) (entries : list Entry) : Prop :=
  ∃ e, e ∈ entries ∧ upsertFails ok e.
End RowFailures.

Section Checks.
Context `{Externals}.

(** Every upsert of the loop is accepted. *)
Definition upsertsAccepted (ok : Entry → bool) (entries : list Entry) : bool :=
  forallb ok entries.

(** The insertion of one pair passes, with [roles] the keys of viz_roles. *)
Definition parentAccepted (roles : gset string) (child_dn parent_dn : string) : bool :=
  accepted "viz_roles_parents" [child_dn; parent_dn]
  && bool_decide (child_dn ∈ roles) && bool_decide (parent_dn ∈ roles).

Definition parentsAccepted (roles : gset string) (entries : list Entry) : bool :=
  forallb (λ e, forallb (parentAccepted roles (DN e))
                  (GetAttributeValues e "nrfParentRoles")) entries.
End Checks.

(** One lifecycle pass on one entity table: the UPDATE, then the DELETE
    with the bound the store accepted, or no DELETE when it refused. *)
Definition passTable {A} (ts : Z) (bound : option Z) (t : gmap string (Row A))
  : gmap string (Row A) :=
  match bound with
  | Some b => purgeOld b (markStale ts t)
  | None => markStale ts t
  end.

(** The test that decides, on the row as it was before the pass, whether
    one lifecycle pass removes it. *)
Definition purgedByPass {A} (ts : Z) (bound : option Z) (r : Row A) : bool :=
  match bound with
  | Some b => bool_decide (updated_at r < b)
              && (is_deleted r || bool_decide (updated_at r < ts))
  | None => false
  end.
Arguments purgedByPass : simpl never.

(** The text that [parseLocalizedAttributes] reads back: the pairs written
    as segments and joined by bars. *)
Definition encodeLocalized (pairs : list (string * string)) : string :=
  Join ((λ kv : string * string, segment (kv.1) (kv.2)) <$> pairs) "|".

(** No position of the text begins one of the three entities. *)
Fixpoint entityFree (s : string) : bool :=
  match s with
  | EmptyString => true
  | String _ s' =>
      negb (String.prefix "&quot;" s) && negb (String.prefix "&lt;" s)
      && negb (String.prefix "&gt;" s) && entityFree s'
  end.

(** One invocation of the program: what the directory returns, the
    watermark and the retention. *)
Record Invocation := {
  invDirectory : Directory;
  invTime : Z;
  invDays : Z
}.

(** The store after a sequence of invocations. *)
Definition runs `{Externals} (invs : list Invocation) (db : DB) : DB :=
  fold_left (λ db i, run (invDirectory i) (invTime i) (invDays i) db) invs db.

(** The watermarks of the invocations do not go back, starting at [lo]. *)
Fixpoint nondecreasing (lo : Z) (invs : list Invocation) : Prop :=
  match invs with
  | [] => True
  | i :: rest => lo ≤ invTime i ∧ nondecreasing (invTime i) rest
  end.

(** The watermark of the last invocation ([lo] when there is none). *)
Definition lastTime (lo : Z) (invs : list Invocation) : Z :=
  fold_left (λ _ i, invTime i) invs lo.

(** The timestamps of a row are in order and not after [ts]. *)
Definition rowStamped {A} (ts : Z) (r : Row A) : Prop :=
  created_at r ≤ updated_at r ∧ updated_at r ≤ ts.

Definition tableStamped {A} (ts : Z) (t : gmap string (Row A)) : Prop :=
  ∀ dn r, t !! dn = Some r → rowStamped ts r.

Definition stamped (ts : Z) (db : DB) : Prop :=
  tableStamped ts (viz_roles db) ∧ tableStamped ts (viz_resources db) ∧
  tableStamped ts (viz_roles_resources db).

(** ** A stand-in for the external libraries

    Small executable decoders, enough to run the synchronizers on
    concrete directory entries.  The XML decoders read one fixed layout
    of elements without attributes, children, comments or CDATA sections,
    and decode the character data as [encoding/xml] does: the five
    predefined entities and the numeric character references are
    replaced, any other use of the ampersand is a syntax error.  The JSON
    decoder knows a short table of documents (spaces ignored), the store
    refuses a text that holds the byte 0, the zone is UTC (a calendar day
    is 86400 seconds) and the store reads the dates of the years 1 to
    294276. *)

Module Demo.

(** [s] without its prefix [p]. *)
Fixpoint stripPrefix (p s : string) : option string :=
  match p, s with
  | EmptyString, _ => Some s
  | String a p', String b s' =>
      if Ascii.eqb a b then stripPrefix p' s' else None
  | String _ _, EmptyString => None
  end.

(** The text up to the first occurrence of [close], and what follows it. *)
Fixpoint upTo (close : string) (s : string) : option (string * string) :=
  match stripPrefix close s with
  | Some rest => Some (EmptyString, rest)
  | None =>
      match s with
      | EmptyString => None
      | String a s' =>
          match upTo close s' with
          | Some (body, rest) => Some (String a body, rest)
          | None => None
          end
      end
  end.

(** The content of an element [<tag>..</tag>] at the head of [s]. *)
Definition element (tag : string) (s : string) : option (string * string) :=
  match stripPrefix ("<" ++ tag ++ ">") s with
  | Some s1 => upTo ("</" ++ tag ++ ">") s1
  | None => None
  end.

(** The value of a digit in a character reference. *)
Definition digit (base : Z) (a : ascii) : option Z :=
  let n := Z.of_N (N_of_ascii a) in
  if (48 <=? n) && (n <=? 57) then Some (n - 48)
  else if (base =? 16) && (97 <=? n) && (n <=? 102) then Some (n - 87)
  else if (base =? 16) && (65 <=? n) && (n <=? 70) then Some (n - 55)
  else None.

(** The number a non-empty run of digits denotes. *)
Fixpoint digits (base : Z) (acc : option Z) (s : string) : option Z :=
  match s with
  | EmptyString => acc
  | String a s' =>
      match digit base a with
      | Some d => digits base (Some (default 0 acc * base + d)) s'
      | None => None
      end
  end.

Definition byte (n : Z) : ascii := ascii_of_N (Z.to_N n).

(** The UTF-8 encoding of a code point. *)
Definition utf8 (n : Z) : string :=
  if n <? 128 then String (byte n) EmptyString
  else if n <? 2048 then
    String (byte (192 + n / 64)) (String (byte (128 + n mod 64)) EmptyString)
  else if n <? 65536 then
    String (byte (224 + n / 4096))
      (String (byte (128 + (n / 64) mod 64))
         (String (byte (128 + n mod 64)) EmptyString))
  else
    String (byte (240 + n / 262144))
      (String (byte (128 + (n / 4096) mod 64))
         (String (byte (128 + (n / 64) mod 64))
            (String (byte (128 + n mod 64)) EmptyString))).

(** The characters XML allows. *)
Definition inCharacterRange (n : Z) : bool :=
  (n =? 9) || (n =? 10) || (n =? 13) || (32 <=? n) && (n <=? 55295)
  || (57344 <=? n) && (n <=? 65533) || (65536 <=? n) && (n <=? 1114111).

(** The text of the reference [&name;]: one of the five predefined
    entities, or a decimal or hexadecimal character reference (a
    surrogate becomes U+FFFD, as [string(rune(n))] has it). *)
Definition reference (name : string) : option string :=
  if String.eqb name "lt" then Some "<"
  else if String.eqb name "gt" then Some ">"
  else if String.eqb name "amp" then Some "&"
  else if String.eqb name "apos" then Some "'"
  else if String.eqb name "quot" then Some quote
  else
    match stripPrefix "#" name with
    | None => None
    | Some number =>
        let parsed :=
          match stripPrefix "x" number with
          | Some hex => digits 16 None hex
          | None => digits 10 None number
          end in
        match parsed with
        | None => None
        | Some n =>
            let rune := if (55296 <=? n) && (n <=? 57343) then 65533 else n in
            if (n <=? 1114111) && inCharacterRange rune then Some (utf8 rune)
            else None
        end
    end.

(** The character data of an element, decoded.  [pending] holds the
    name of a reference whose semicolon has not been met yet. *)
Fixpoint charData (pending : option string) (s : string) : option string :=
  match s with
  | EmptyString =>
      match pending with
      | None => Some EmptyString
      | Some _ => None
      end
  | String a s' =>
      match pending with
      | Some name =>
          if Ascii.eqb a ";" then
            match reference name, charData None s' with
            | Some text, Some rest => Some (text ++ rest)
            | _, _ => None
            end
          else charData (Some (name ++ String a EmptyString)) s'
      | None =>
          if Ascii.eqb a "&" then charData (Some EmptyString) s'
          else if Ascii.eqb a "<" then None
          else if (N_of_ascii a <? 32)%N
                  && negb (Ascii.eqb a (ascii_of_nat 9))
                  && negb (Ascii.eqb a (ascii_of_nat 10)) then None
          else match charData None s' with
               | Some rest => Some (String a rest)
               | None => None
               end
      end
  end.

(** The decoded text of an element [<tag>..</tag>] at the head of [s]. *)
Definition textElement (tag : string) (s : string) : option (string * string) :=
  '(raw, rest) ← element tag s;
  text ← charData None raw;
  Some (text, rest).

Definition xmlRef (s : string) : option EntitlementRefXML :=
  '(body, _) ← element "ref" s;
  '(src, s1) ← textElement "src" body;
  '(id, s2) ← textElement "id" s1;
  match element "param" s2 with
  | Some (raw, _) =>
      param ← charData None raw;
      Some {| Src := src; ID := id; Param := param |}
  | None => Some {| Src := src; ID := id; Param := EmptyString |}
  end.

Definition xmlParm (s : string) : option DynamicParmValsXML :=
  '(body, _) ← element "parameter" s;
  '(value, _) ← textElement "value" body;
  Some {| Value := value |}.

Definition jsonParam (s : string) : option EntitlementParamJSON :=
  s1 ← stripPrefix ("{" ++ quote ++ "ID" ++ quote ++ ":" ++ quote) s;
  '(id, _) ← upTo (quote ++ "}") s1;
  Some {| param_ID := id; param_ID2 := EmptyString; param_ID3 := EmptyString |}.

Fixpoint dropSpaces (s : string) : string :=
  match s with
  | EmptyString => EmptyString
  | String a s' =>
      if Ascii.eqb a " " then dropSpaces s' else String a (dropSpaces s')
  end.

(** The documents the stand-in decodes, in their canonical spelling. *)
Definition documents : list string :=
  ["{}"; "[]"; "[1,2]"; "{" ++ quote ++ "a" ++ quote ++ ":1}"].

Definition jsonDecode (s : string) : option string :=
  List.find (String.eqb (dropSpaces s)) documents.

Definition jsonEncode (j : string) : option string := Some j.

Definition jsonMap (m : gmap string string) : string :=
  "{" ++ Join (List.map (λ kv : string * string,
                 quote ++ kv.1 ++ quote ++ ":" ++ quote ++ kv.2 ++ quote)
               (map_to_list m)) "," ++ "}".

Definition hasZeroByte (table : string) (params : list string) : bool :=
  existsb (λ s, Contains s zero) params.

(** [AddDate(0, 0, -days)] in UTC, accepted by the store from the first
    second of the year 1 to the last one of the year 294276. *)
Definition purgeTimestampUTC (syncStartTimestamp days : Z) : option Z :=
  let bound := syncStartTimestamp - days * 86400 in
  if (-62135596800 <=? bound) && (bound <? 9224318016000) then Some bound else None.

Lemma jsonEncode_decoded (s j : string) :
  jsonDecode s = Some j → is_Some (jsonEncode j).
Proof. intros _. by eexists. Qed.

Lemma jsonEncode_roundtrip (s j out : string) :
  jsonDecode s = Some j → jsonEncode j = Some out → jsonDecode out = Some j.
Proof.
  unfold jsonDecode, jsonEncode. intros Hf [= <-].
  apply List.find_some in Hf as [Hin _].
  cbv [documents] in Hin. simpl in Hin.
  destruct Hin as [<-|[<-|[<-|[<-|[]]]]]; reflexivity.
Qed.

#[export] Instance externals : Externals := {|
  JSONValue := string;
  xmlUnmarshalRef := xmlRef;
  jsonUnmarshalParam := jsonParam;
  xmlUnmarshalParm := xmlParm;
  jsonUnmarshal := jsonDecode;
  jsonMarshal := jsonEncode;
  jsonMarshalMap := jsonMap;
  refused := hasZeroByte;
  purgeTimestamp := purgeTimestampUTC;
  jsonMarshal_decoded := jsonEncode_decoded;
  jsonMarshal_roundtrip := jsonEncode_roundtrip
|}.

End Demo.

(** ** Sample directory entries and stores *)

Module Samples.

Definition roleR1 : Entry :=
  {| DN := "R1";
     Attributes := [("nrfRoleLevel", ["10"]);
                    ("nrfLocalizedNames", ["en~Hello|de~Hallo"]);
                    ("nrfParentRoles", ["R2"])] |}.

Definition roleR2 : Entry :=
  {| DN := "R2"; Attributes := [("nrfRoleLevel", ["20"])] |}.

(** A role whose level holds the byte 0, which the store refuses. *)
Definition roleBad : Entry :=
  {| DN := "R3"; Attributes := [("nrfRoleLevel", [String zero EmptyString])] |}.

Definition resourceS1 : Entry :=
  {| DN := "S1"; Attributes := [("nrfEntitlementRef", ["driverOnly"])] |}.

Definition assocA1 : Entry :=
  {| DN := "A1";
     Attributes :=
       [("nrfRole", ["R1"]); ("nrfResource", ["S1"]);
        ("nrfDynamicParmVals",
         ["<parameter><value>{ &quot;a&quot; : 1 }</value></parameter>"])] |}.



Definition someCols : RoleCols :=
  {| nrfRoleLevel := "10"; role_nrfLocalizedNames := "{}";
     role_nrfLocalizedDescrs := "{}"; nrfRoleCategoryKey := EmptyString |}.

(** R1 was last written at 900, before the run at 1000. *)
Definition storeR1 : DB :=
  mkDB {[ "R1" := mkRow someCols 100 900 false ]} ∅ ∅ ∅.

(** R1 was last written ten days before the pass at [passTime]. *)
Definition passTime : Z := 2000000.

Definition storeOld : DB :=
  mkDB {[ "R1" := mkRow someCols 100 (passTime - 10 * day) false;
          "R2" := mkRow someCols 100 (passTime - 1 * day) false ]}
       {[ ("R1", "R2") ]} ∅ ∅.

Definition dirR1 : Directory :=
  {| foundRoles := Some [roleR1];
     foundResources := Some [];
     foundAssociations := Some [] |}.

(** R2 is in the table from an earlier run. *)
Definition storeR2 : DB :=
  mkDB {[ "R2" := mkRow someCols 100 900 false ]} ∅ ∅ ∅.

Definition dirR2 : Directory :=
  {| foundRoles := Some [roleR2];
     foundResources := Some [];
     foundAssociations := Some [] |}.

Definition dirNothing : Directory :=
  {| foundRoles := Some [];
     foundResources := Some [];
     foundAssociations := Some [] |}.

Definition dirAll : Directory :=
  {| foundRoles := Some [roleR1; roleR2];
     foundResources := Some [resourceS1];
     foundAssociations := Some [assocA1] |}.

End Samples.

Import Samples.

(** ** Further samples *)

Module MoreSamples.

(** A second entry for the key R1, with another level. *)
Definition roleR1again : Entry :=
  {| DN := "R1"; Attributes := [("nrfRoleLevel", ["30"])] |}.

(** An entitlement reference whose XML fragment holds a hash sign. *)
Definition entitlementText : string :=
  "drv#1#<ref><src>S</src><id>I</id><param>x#y</param></ref>".

Definition localizedPairs : list (string * string) :=
  [("en", "Hello"); ("de", "Hallo"); ("en", "Hi")].

End MoreSamples.

Import MoreSamples.

(** * Proofs *)

(** ** Facts on the string functions *)

Lemma append_nil_l (s : string) : EmptyString ++ s = s.
Proof. reflexivity. Qed.

Lemma append_cons (a : ascii) (s t : string) : String a s ++ t = String a (s ++ t).
Proof. reflexivity. Qed.

Lemma append_nil_r (s : string) : s ++ EmptyString = s.
Proof. induction s as [|a s IH]; [done|]. by rewrite append_cons, IH. Qed.

Lemma append_assoc (s t u : string) : (s ++ t) ++ u = s ++ (t ++ u).
Proof. induction s as [|a s IH]; [done|]. by rewrite !append_cons, IH. Qed.

Ltac str_simpl := rewrite ?append_cons, ?append_nil_l in *.

Section StringFacts.
Variable c : ascii.

Lemma Contains_cutAt (s : string) : Contains s c = false ↔ cutAt c s = None.
Proof. unfold Contains. destruct (cutAt c s); split; congruence. Qed.

Lemma Contains_cons (a : ascii) (s : string) :
  Contains (String a s) c = false ↔ a ≠ c ∧ Contains s c = false.
Proof.
  unfold Contains. simpl. destruct (Ascii.eqb_spec a c) as [->|Hne].
  - split; [discriminate | intros [? _]; congruence].
  - destruct (cutAt c s) as [[? ?]|]; simpl; intuition congruence.
Qed.

(** [cutAt] finds the first occurrence of the separator. *)
Lemma cutAt_Some (s before after : string) :
  cutAt c s = Some (before, after) ↔
  s = before ++ String c after ∧ Contains before c = false.
Proof.
  revert before. induction s as [|a s IH]; intros before; simpl.
  - split; [discriminate|]. intros [Heq _]. destruct before; discriminate.
  - destruct (Ascii.eqb_spec a c) as [->|Hne].
    + split.
      * intros [= <- <-]. split; reflexivity.
      * intros [Heq Hno]. destruct before as [|b before]; str_simpl.
        -- congruence.
        -- injection Heq as <- _. apply Contains_cons in Hno. tauto.
    + destruct (cutAt c s) as [[b' a']|] eqn:Hcut.
      * split.
        -- intros [= <- <-]. destruct (proj1 (IH b') eq_refl) as [-> Hno].
           split; [reflexivity|]. apply Contains_cons. tauto.
        -- intros [Heq Hno]. destruct before as [|b before]; str_simpl.
           ++ congruence.
           ++ injection Heq as <- ->. apply Contains_cons in Hno as [_ Hno].
              assert (Some (b', a') = Some (before, after)) as [= -> ->]; [|done].
              apply IH. done.
      * split; [discriminate|]. intros [Heq Hno].
        destruct before as [|b before]; str_simpl; [congruence|].
        injection Heq as <- ->. apply Contains_cons in Hno as [_ Hno].
        assert (None = Some (before, after)) by (apply IH; done). discriminate.
Qed.

Lemma Count_le_length (s : string) : (Count s c ≤ String.length s)%nat.
Proof.
  induction s as [|a s IH]; simpl; [lia|]. destruct (Ascii.eqb a c); lia.
Qed.

Lemma Count_0_Contains (s : string) : Count s c = 0%nat ↔ Contains s c = false.
Proof.
  induction s as [|a s IH]; [done|]. rewrite Contains_cons. simpl.
  destruct (Ascii.eqb_spec a c) as [->|Hne]; [split; [lia | tauto]|].
  rewrite <- IH. simpl. tauto.
Qed.

Lemma Count_append (s t : string) : Count (s ++ t) c = (Count s c + Count t c)%nat.
Proof.
  induction s as [|a s IH]; [done|]. rewrite append_cons. simpl. rewrite IH. lia.
Qed.

Lemma cutAt_Count (s before after : string) :
  cutAt c s = Some (before, after) → Count s c = S (Count after c).
Proof.
  intros [-> Hno]%cutAt_Some. apply Count_0_Contains in Hno.
  rewrite Count_append, Hno. simpl. by rewrite Ascii.eqb_refl.
Qed.

Lemma genSplit_loop_nonempty (k : nat) (s : string) : genSplit_loop c k s ≠ [].
Proof. destruct k; simpl; [done|]. by destruct (cutAt c s) as [[? ?]|]. Qed.

Lemma genSplit_loop_length (k : nat) (s : string) :
  (List.length (genSplit_loop c k s) ≤ S k)%nat.
Proof.
  revert s. induction k as [|k IH]; intros s; simpl; [lia|].
  destruct (cutAt c s) as [[b a]|]; simpl; [|lia]. specialize (IH a). lia.
Qed.

Lemma Join_cons (x : string) (rest : list string) (sep : string) :
  rest ≠ [] → Join (x :: rest) sep = x ++ sep ++ Join rest sep.
Proof. by destruct rest. Qed.

(** Joining the parts with the separator gives the string back. *)
Lemma genSplit_loop_Join (k : nat) (s : string) :
  Join (genSplit_loop c k s) (String c EmptyString) = s.
Proof.
  revert s. induction k as [|k IH]; intros s; simpl; [done|].
  destruct (cutAt c s) as [[b a]|] eqn:Hcut; [|done].
  rewrite Join_cons by apply genSplit_loop_nonempty.
  rewrite IH. apply cutAt_Some in Hcut as [-> _]. by str_simpl.
Qed.

(** With enough cuts allowed no part holds the separator. *)
Lemma genSplit_loop_all (k : nat) (s : string) :
  (Count s c ≤ k)%nat →
  Forall (λ p, Contains p c = false) (genSplit_loop c k s).
Proof.
  revert s. induction k as [|k IH]; intros s Hk; simpl.
  - constructor; [|done]. apply Count_0_Contains. lia.
  - destruct (cutAt c s) as [[b a]|] eqn:Hcut.
    + pose proof (cutAt_Count _ _ _ Hcut). apply cutAt_Some in Hcut as [_ Hb].
      constructor; [done|]. apply IH. lia.
    + constructor; [|done]. by apply Contains_cutAt.
Qed.

(** Cuts beyond the number of separators change nothing. *)
Lemma genSplit_loop_enough (k : nat) (s : string) :
  (Count s c ≤ k)%nat → genSplit_loop c k s = genSplit_loop c (Count s c) s.
Proof.
  revert s. induction k as [|k IH]; intros s Hk.
  - by replace (Count s c) with 0%nat by lia.
  - simpl. destruct (cutAt c s) as [[b a]|] eqn:Hcut.
    + rewrite (cutAt_Count _ _ _ Hcut) in *. simpl. rewrite Hcut.
      f_equal. apply IH. lia.
    + apply Contains_cutAt, Count_0_Contains in Hcut as ->. done.
Qed.

Lemma Split_genSplit (s : string) : Split s c = genSplit_loop c (Count s c) s.
Proof.
  unfold Split, SplitN. pose proof (Count_le_length s).
  simpl (_ =? _). cbv iota. replace (-1 <? 0) with true by done.
  destruct (Z.ltb_spec (Z.of_nat (String.length s) + 1) (Z.of_nat (Count s c) + 1));
    [lia|]. f_equal. lia.
Qed.

(** [SplitN] with a bound above the number of separators is [Split]. *)
Lemma SplitN_enough (s : string) (n : Z) :
  Z.of_nat (Count s c) < n → SplitN s c n = Split s c.
Proof.
  intros Hn. rewrite Split_genSplit. unfold SplitN.
  pose proof (Count_le_length s).
  destruct (Z.eqb_spec n 0); [lia|]. destruct (Z.ltb_spec n 0); [lia|].
  destruct (Z.ltb_spec (Z.of_nat (String.length s) + 1) n);
    apply genSplit_loop_enough; lia.
Qed.

Lemma SplitN_length (s : string) (n : Z) :
  0 < n → Z.of_nat (List.length (SplitN s c n)) ≤ n.
Proof.
  intros Hn. unfold SplitN.
  destruct (Z.eqb_spec n 0); [lia|]. destruct (Z.ltb_spec n 0); [lia|].
  match goal with |- context [genSplit_loop c ?k s] =>
    pose proof (genSplit_loop_length k s) as Hl; revert Hl end.
  destruct (Z.ltb_spec (Z.of_nat (String.length s) + 1) n); lia.
Qed.

Lemma Split_Join (s : string) : Join (Split s c) (String c EmptyString) = s.
Proof. rewrite Split_genSplit. apply genSplit_loop_Join. Qed.

Lemma Split_all (s : string) : Forall (λ p, Contains p c = false) (Split s c).
Proof. rewrite Split_genSplit. by apply genSplit_loop_all. Qed.

(** [SplitN(part, sep, 2)] of a part that holds the separator: the two
    sides of its first occurrence. *)
Lemma SplitN_2 (part before after : string) :
  cutAt c part = Some (before, after) → SplitN part c 2 = [before; after].
Proof.
  intros Hcut. unfold SplitN. simpl (_ =? _). cbv iota.
  replace (2 <? 0) with false by done.
  destruct part as [|a part]; [done|].
  destruct (Z.ltb_spec (Z.of_nat (String.length (String a part)) + 1) 2) as [Hl|Hl];
    [simpl in Hl; lia|].
  change (Z.to_nat (2 - 1)) with 1%nat. cbn [genSplit_loop]. by rewrite Hcut.
Qed.

Lemma Split_no_separator (s : string) : Contains s c = false → Split s c = [s].
Proof.
  intros Hno. rewrite Split_genSplit.
  apply Count_0_Contains in Hno as ->. done.
Qed.

Lemma Split_one_separator (s before after : string) :
  cutAt c s = Some (before, after) → Contains after c = false →
  Split s c = [before; after].
Proof.
  intros Hcut Hno. rewrite Split_genSplit, (cutAt_Count _ _ _ Hcut).
  apply Count_0_Contains in Hno as ->. simpl. rewrite Hcut. done.
Qed.

End StringFacts.

(** ** The localized-text decoder *)

Lemma parseLocalizedPart_cut (result : gmap string string) (part : string) :
  parseLocalizedPart result part =
  match cutAt "~" part with
  | Some (k, v) => <[k := v]> result
  | None => result
  end.
Proof.
  unfold parseLocalizedPart, Contains.
  destruct (cutAt "~" part) as [[k v]|] eqn:Hcut; [|done].
  by rewrite (SplitN_2 _ _ _ _ Hcut).
Qed.

Lemma cutAt_segment (k v : string) :
  Contains k "~" = false → cutAt "~" (segment k v) = Some (k, v).
Proof. intros Hk. by apply cutAt_Some. Qed.

Lemma segment_cutAt (part k v : string) :
  cutAt "~" part = Some (k, v) → part = segment k v ∧ Contains k "~" = false.
Proof. intros Hcut. by apply cutAt_Some in Hcut. Qed.

(** The map built by the loop: a key is bound to the value of the last
    segment that carries it. *)
Lemma parse_fold_lookup (parts : list string) (k v : string) :
  fold_left parseLocalizedPart parts ∅ !! k = Some v ↔
  ∃ before after,
    parts = (before ++ segment k v :: after)%list ∧ Contains k "~" = false ∧
    Forall (λ p, ∀ v', p ≠ segment k v') after.
Proof.
  revert v. induction parts as [|x parts IH] using rev_ind; intros v.
  - simpl. rewrite lookup_empty. split; [done|].
    intros (before & after & Heq & _). by destruct before.
  - rewrite fold_left_app. simpl. rewrite parseLocalizedPart_cut.
    destruct (cutAt "~" x) as [[k0 v0]|] eqn:Hcut.
    + destruct (segment_cutAt _ _ _ Hcut) as [-> Hk0].
      destruct (decide (k0 = k)) as [->|Hne].
      * rewrite lookup_insert_eq. split.
        -- intros [= ->]. exists parts, []. done.
        -- intros (before & after & Heq & Hk & Hafter).
           destruct after as [|y after _] using rev_ind.
           ++ apply app_inj_tail in Heq as [_ Heq].
              rewrite Heq, cutAt_segment in Hcut by done. congruence.
           ++ rewrite app_comm_cons, app_assoc in Heq.
              apply app_inj_tail in Heq as [_ <-].
              apply Forall_app in Hafter as [_ Hy].
              inversion Hy as [|? ? Hy' _]; subst. by destruct (Hy' v0).
      * rewrite lookup_insert_ne by done. rewrite IH. split.
        -- intros (before & after & -> & Hk & Hafter).
           exists before, (after ++ [segment k0 v0])%list.
           split; [by rewrite <- app_assoc|]. split; [done|].
           apply Forall_app. split; [done|]. constructor; [|done].
           intros v' Heq. rewrite Heq, cutAt_segment in Hcut by done. congruence.
        -- intros (before & after & Heq & Hk & Hafter).
           destruct after as [|y after _] using rev_ind.
           ++ apply app_inj_tail in Heq as [_ Heq].
              rewrite Heq, cutAt_segment in Hcut by done. congruence.
           ++ rewrite app_comm_cons, app_assoc in Heq.
              apply app_inj_tail in Heq as [-> <-].
              apply Forall_app in Hafter as [Hafter _]. by exists before, after.
    + rewrite IH. split.
      * intros (before & after & -> & Hk & Hafter).
        exists before, (after ++ [x])%list.
        split; [by rewrite <- app_assoc|]. split; [done|].
        apply Forall_app. split; [done|]. constructor; [|done].
        intros v' ->. rewrite cutAt_segment in Hcut by done. congruence.
      * intros (before & after & Heq & Hk & Hafter).
        destruct after as [|y after _] using rev_ind.
        -- apply app_inj_tail in Heq as [_ ->].
           rewrite cutAt_segment in Hcut by done. congruence.
        -- rewrite app_comm_cons, app_assoc in Heq.
           apply app_inj_tail in Heq as [-> <-].
           apply Forall_app in Hafter as [Hafter _]. by exists before, after.
Qed.

Lemma parseLocalizedAttributes_fold (s : string) :
  parseLocalizedAttributes s = fold_left parseLocalizedPart (Split s "|") ∅.
Proof.
  unfold parseLocalizedAttributes. destruct (String.eqb_spec s EmptyString) as [->|]; done.
Qed.

(** C6. The localized-text decoder cuts its input at every bar (the parts
    hold no bar and joined by bars give the input back), binds each key to
    the value of the last part of the form key~value whose key holds no
    tilde (so a part is split at its first tilde, a part without tilde
    binds nothing, and a later duplicate wins), maps the empty string to
    the empty mapping, and maps the sample of the specification to its two
    bindings.  It is a total function: no input makes it fail. *)
Theorem parseLocalizedAttributes_spec (s : string) :
  let parts := Split s "|" in
  Join parts "|" = s ∧
  Forall (λ p, Contains p "|" = false) parts ∧
  (∀ k v, parseLocalizedAttributes s !! k = Some v ↔
     ∃ before after,
       parts = (before ++ segment k v :: after)%list ∧
       Contains k "~" = false ∧
       Forall (λ p, ∀ v', p ≠ segment k v') after) ∧
  (∀ part, Contains part "~" = true → List.length (SplitN part "~" 2) = 2%nat) ∧
  parseLocalizedAttributes EmptyString = ∅ ∧
  parseLocalizedAttributes "en~Hello|de~Hallo" = {[ "en" := "Hello"; "de" := "Hallo" ]}.
Proof.
  intros parts. split; [apply Split_Join|]. split; [apply Split_all|].
  split; [|split; [|split]].
  - intros k v. rewrite parseLocalizedAttributes_fold. apply parse_fold_lookup.
  - intros part Hc. unfold Contains in Hc.
    destruct (cutAt "~" part) as [[k v]|] eqn:Hcut; [|done].
    by rewrite (SplitN_2 _ _ _ _ Hcut).
  - reflexivity.
  - by vm_compute.
Qed.

(** ** The entitlement-reference decoder *)

Section EntitlementFacts.
Context `{Externals}.

(** C7. An entitlement reference with fewer than two hash signs is
    decoded without failure: [SplitN] gives at most three parts (here
    one or two, the complete split of the input), the driver is the
    first part, the status the second part when there is one and empty
    otherwise, and the XML fragment and the five fields derived from it
    are empty. *)
Theorem decodeEntitlementRef_few_delimiters (s : string) :
  (Count s "#" < 2)%nat →
  let refParts := SplitN s "#" 3 in
  let r := decodeEntitlementRef s in
  (List.length refParts ≤ 3)%nat ∧
  Join refParts "#" = s ∧
  Forall (λ p, Contains p "#" = false) refParts ∧
  refParts = (if Contains s "#"
              then [entitlementDriver r; entitlementStatus r]
              else [entitlementDriver r]) ∧
  (Contains s "#" = false → entitlementStatus r = EmptyString) ∧
  entitlementXML r = EmptyString ∧
  entitlementXMLSrc r = EmptyString ∧
  entitlementXMLID r = EmptyString ∧
  entitlementXMLParamID r = EmptyString ∧
  entitlementXMLParamID2 r = EmptyString ∧
  entitlementXMLParamID3 r = EmptyString.
Proof.
  intros Hcount refParts r.
  assert (refParts = Split s "#") as Hsplit by (apply SplitN_enough; lia).
  split.
  { pose proof (SplitN_length "#" s 3 ltac:(lia)). unfold refParts. lia. }
  split; [rewrite Hsplit; apply Split_Join|].
  split; [rewrite Hsplit; apply Split_all|].
  unfold r, decodeEntitlementRef. fold refParts. clearbody refParts. subst refParts.
  unfold Contains. destruct (cutAt "#" s) as [[b a]|] eqn:Hcut.
  - pose proof (cutAt_Count _ _ _ _ Hcut) as Hc.
    rewrite (Split_one_separator _ _ _ _ Hcut) by (apply Count_0_Contains; lia).
    simpl. repeat split; done.
  - rewrite Split_no_separator by (by apply Contains_cutAt).
    simpl. repeat split; done.
Qed.

End EntitlementFacts.

(** ** The three replacements are one pass *)

Lemma prefix_append (p s : string) :
  String.prefix p s = true ↔ ∃ r, s = p ++ r.
Proof.
  revert s. induction p as [|a p IH]; intros s.
  - split; [by exists s | by destruct s].
  - destruct s as [|b s]; simpl.
    + split; [done | intros [r Hr]; by str_simpl].
    + destruct (ascii_dec a b) as [->|Hne].
      * rewrite IH. split; intros [r Hr]; exists r; str_simpl; congruence.
      * split; [done|]. intros [r Hr]. str_simpl. congruence.
Qed.

Lemma length_append (s t : string) :
  String.length (s ++ t) = (String.length s + String.length t)%nat.
Proof. induction s as [|a s IH]; [done|]. str_simpl. simpl. by rewrite IH. Qed.

Section ReplaceFacts.
Variables (o : ascii) (old' new : string).
Let old := String o old'.

Lemma replace_scan_skip (p r : string) :
  replace_scan old new (String.length p) (p ++ r) = replace_scan old new 0 r.
Proof. induction p as [|a p IH]; [done|]. by str_simpl. Qed.

Lemma replace_scan_match (r : string) :
  replace_scan old new 0 (old ++ r) = new ++ replace_scan old new 0 r.
Proof.
  unfold old at 2. rewrite append_cons. cbn [replace_scan].
  replace (String.prefix old (String o (old' ++ r))) with true
    by (symmetry; apply prefix_append; by exists r).
  f_equal. unfold old at 2.
  replace (String.length (String o old') - 1)%nat with (String.length old')
    by (simpl; lia).
  apply replace_scan_skip.
Qed.

Lemma replace_scan_copy (a : ascii) (s : string) :
  String.prefix old (String a s) = false →
  replace_scan old new 0 (String a s) = String a (replace_scan old new 0 s).
Proof. intros Hp. cbn [replace_scan]. by rewrite Hp. Qed.

Lemma replace_scan_other (a : ascii) (s : string) :
  a ≠ o → replace_scan old new 0 (String a s) = String a (replace_scan old new 0 s).
Proof.
  intros Hne. apply replace_scan_copy. simpl.
  destruct (ascii_dec o a); [congruence | done].
Qed.

(** A text that avoids the first byte of [new] begins the output only
    when it begins the input. *)
Lemma replace_scan_prefix (n : ascii) (new' p s : string) :
  new = String n new' → Contains p n = false →
  String.prefix p (replace_scan old new 0 s) = true → String.prefix p s = true.
Proof.
  intros -> Hp. revert s. induction p as [|b p IH]; intros s; [by destruct s|].
  apply Contains_cons in Hp as [Hb Hp]. specialize (IH Hp).
  destruct s as [|a s]; [done|]. cbn [replace_scan].
  destruct (String.prefix old (String a s)).
  - rewrite append_cons. simpl. destruct (ascii_dec b n); [congruence | done].
  - simpl. destruct (ascii_dec b a); [apply IH | done].
Qed.

End ReplaceFacts.

Lemma unescape_pass_skip (p r : string) :
  unescape_pass (String.length p) (p ++ r) = unescape_pass 0 r.
Proof. induction p as [|a p IH]; [done|]. by str_simpl. Qed.

Lemma ReplaceAll_scan (s : string) (o : ascii) (old' new : string) :
  String o old' ≠ new →
  ReplaceAll s (String o old') new = replace_scan (String o old') new 0 s.
Proof.
  intros Hne. unfold ReplaceAll.
  destruct (String.eqb_spec (String o old') new); done.
Qed.

Lemma unescapeEntities_scans (s : string) :
  unescapeEntities s =
  replace_scan "&gt;" ">" 0 (replace_scan "&lt;" "<" 0 (replace_scan "&quot;" quote 0 s)).
Proof. unfold unescapeEntities. by rewrite !ReplaceAll_scan. Qed.

Lemma prefix_false_cons (a : ascii) (p s : string) :
  (String.prefix p s = true → False) → String.prefix (String a p) (String a s) = false.
Proof.
  intros Hp. simpl. destruct (ascii_dec a a); [|done].
  destruct (String.prefix p s); [by destruct Hp | done].
Qed.

Lemma prefix_cons_ne (a b : ascii) (p s : string) :
  b ≠ a → String.prefix (String a p) (String b s) = false.
Proof. intros Hne. simpl. destruct (ascii_dec a b); [congruence | done]. Qed.

Lemma prefix_cons_inv (a b : ascii) (p s : string) :
  String.prefix (String a p) (String b s) = false →
  a = b → String.prefix p s = true → False.
Proof. intros Hp -> Hps. simpl in Hp. destruct (ascii_dec b b); congruence. Qed.

(** The three [ReplaceAll] calls replace exactly the three entities. *)
Lemma unescapeEntities_one_pass (s : string) : unescapeEntities s = unescape_spec s.
Proof.
  rewrite unescapeEntities_scans. unfold unescape_spec.
  remember (String.length s) as n eqn:Hn. revert s Hn.
  induction n as [n IH] using lt_wf_ind. intros s ->.
  destruct s as [|a s]; [done|]. cbn [unescape_pass].
  destruct (String.prefix "&quot;" (String a s)) eqn:Hq.
  { apply prefix_append in Hq as [r Hr]. rewrite Hr.
    rewrite replace_scan_match.
    change (quote ++ ?x) with (String (ascii_of_nat 34) x).
    rewrite !replace_scan_other by done.
    change ("&quot;" ++ r) with (String "&" ("quot;" ++ r)) in Hr.
    injection Hr as -> ->. f_equal.
    change 5%nat with (String.length "quot;"). rewrite unescape_pass_skip. eapply IH; [|done].
    simpl. rewrite length_append. simpl. lia. }
  destruct (String.prefix "&lt;" (String a s)) eqn:Hl.
  { apply prefix_append in Hl as [r Hr]. rewrite Hr.
    change ("&lt;" ++ r) with (String "&" ("lt;" ++ r)) in *.
    injection Hr as -> ->.
    rewrite replace_scan_copy by done.
    change ("lt;" ++ r) with (String "l" (String "t" (String ";" r))).
    rewrite 3!(replace_scan_other "&" "quot;") by done.
    change (String "&" (String "l" (String "t" (String ";" ?x)))) with ("&lt;" ++ x).
    rewrite (replace_scan_match "&" "lt;" "<").
    change ("<" ++ ?x) with (String "<" x).
    rewrite replace_scan_other by done. f_equal.
    change (unescape_pass 3 _) with (unescape_pass (String.length "lt;") ("lt;" ++ r)).
    rewrite unescape_pass_skip. eapply IH; [|done].
    simpl. rewrite length_append. simpl. lia. }
  destruct (String.prefix "&gt;" (String a s)) eqn:Hg.
  { apply prefix_append in Hg as [r Hr]. rewrite Hr.
    change ("&gt;" ++ r) with (String "&" ("gt;" ++ r)) in *.
    injection Hr as -> ->.
    rewrite replace_scan_copy by done.
    change ("gt;" ++ r) with (String "g" (String "t" (String ";" r))).
    rewrite 3!(replace_scan_other "&" "quot;") by done.
    rewrite (replace_scan_copy "&" "lt;") by done.
    rewrite 3!(replace_scan_other "&" "lt;") by done.
    change (String "&" (String "g" (String "t" (String ";" ?x)))) with ("&gt;" ++ x).
    rewrite (replace_scan_match "&" "gt;" ">").
    change (">" ++ ?x) with (String ">" x). f_equal.
    change (unescape_pass 3 _) with (unescape_pass (String.length "gt;") ("gt;" ++ r)).
    rewrite unescape_pass_skip. eapply IH; [|done].
    simpl. rewrite length_append. simpl. lia. }
  rewrite replace_scan_copy by done.
  rewrite replace_scan_copy; cycle 1.
  { destruct (ascii_dec a "&") as [->|Hne]; [|by apply prefix_cons_ne].
    apply prefix_false_cons. intros Hp.
    apply (replace_scan_prefix _ _ _ (ascii_of_nat 34) EmptyString) in Hp; [|done..].
    by apply (prefix_cons_inv _ _ _ _ Hl). }
  rewrite replace_scan_copy; cycle 1.
  { destruct (ascii_dec a "&") as [->|Hne]; [|by apply prefix_cons_ne].
    apply prefix_false_cons. intros Hp.
    apply (replace_scan_prefix _ _ _ "<"%char EmptyString) in Hp; [|done..].
    apply (replace_scan_prefix _ _ _ (ascii_of_nat 34) EmptyString) in Hp; [|done..].
    by apply (prefix_cons_inv _ _ _ _ Hg). }
  f_equal. eapply IH; [|done]. simpl. lia.
Qed.

(** ** Facts on the statements *)

Lemma lastWith_None dn entries :
  lastWith dn entries = None ↔ dn ∉ observed entries.
Proof.
  unfold observed. induction entries as [|e rest IH]; simpl.
  - split; [intros _; apply not_elem_of_empty | done].
  - rewrite not_elem_of_union, not_elem_of_singleton, <- IH.
    destruct (lastWith dn rest) as [e'|].
    + split; [done | intros [_ ?]; done].
    + destruct (String.eqb_spec (DN e) dn) as [<-|Hne]; [split; [done | tauto]|].
      split; [intros _; split; [congruence | done] | done].
Qed.

Lemma lastWith_Some dn entries e :
  lastWith dn entries = Some e → e ∈ entries ∧ DN e = dn.
Proof.
  induction entries as [|e0 rest IH]; simpl; [done|].
  destruct (lastWith dn rest) as [e'|].
  - intros [= ->]. destruct IH as [? ?]; [done|]. split; [by right | done].
  - destruct (String.eqb_spec (DN e0) dn) as [<-|Hne]; [|done].
    intros [= ->]. split; [by left | done].
Qed.

Section UpsertFacts.
Context {A : Type}.
Implicit Types (t : gmap string (Row A)) (r : Row A).

Lemma upsert_lookup_eq dn (c : A) (pc pu : Z) (pd : bool) t :
  upsert dn c pc pu pd t !! dn =
  Some (match t !! dn with
        | None => mkRow c pc pu pd
        | Some old => mkRow c (created_at old) pu false
        end).
Proof. unfold upsert. destruct (t !! dn); by rewrite lookup_insert_eq. Qed.

Lemma upsert_lookup_ne dn dn' (c : A) pc pu pd t :
  dn ≠ dn' → upsert dn c pc pu pd t !! dn' = t !! dn'.
Proof. intros. unfold upsert. destruct (t !! dn); by rewrite lookup_insert_ne. Qed.

Lemma upsert_dom dn (c : A) pc pu pd t :
  dom (upsert dn c pc pu pd t) = {[dn]} ∪ dom t.
Proof. unfold upsert. destruct (t !! dn); by rewrite dom_insert_L. Qed.

Variable colsOf : Entry → A.

(** The table after a loop of upserts, key by key. *)
Lemma upsertAll_lookup ts entries t dn :
  upsertAll colsOf ts entries t !! dn =
  match lastWith dn entries with
  | Some e => Some (mkRow (colsOf e)
                          (from_option created_at ts (t !! dn)) ts false)
  | None => t !! dn
  end.
Proof.
  unfold upsertAll. revert t. induction entries as [|e rest IH]; intros t; [done|].
  simpl. rewrite IH. destruct (String.eqb_spec (DN e) dn) as [<-|Hne].
  - rewrite upsert_lookup_eq. destruct (lastWith (DN e) rest), (t !! DN e); done.
  - rewrite upsert_lookup_ne by done. by destruct (lastWith dn rest).
Qed.

Lemma upsertAll_dom ts entries t :
  dom (upsertAll colsOf ts entries t) = dom t ∪ observed entries.
Proof.
  unfold upsertAll, observed. revert t.
  induction entries as [|e rest IH]; intros t; simpl; [set_solver|].
  rewrite IH, upsert_dom. set_solver.
Qed.

Lemma markStale_lookup ts t dn : markStale ts t !! dn = markRow ts <$> t !! dn.
Proof. unfold markStale. by rewrite lookup_fmap. Qed.

Lemma purgeOld_lookup pts t dn :
  purgeOld pts t !! dn =
  t !! dn ≫= λ r, if purgeable pts r then None else Some r.
Proof.
  unfold purgeOld. destruct (t !! dn) as [r|] eqn:Hr; simpl.
  - destruct (purgeable pts r) eqn:Hp.
    + apply map_lookup_filter_None. right. intros r' Hr' Hp'.
      simpl in Hp'. congruence.
    + apply map_lookup_filter_Some. done.
  - apply map_lookup_filter_None. by left.
Qed.

Lemma elem_of_purgedKeys pts t dn :
  dn ∈ purgedKeys pts t ↔ ∃ r, t !! dn = Some r ∧ purgeable pts r = true.
Proof.
  unfold purgedKeys. rewrite elem_of_dom. unfold is_Some.
  setoid_rewrite map_lookup_filter_Some. done.
Qed.

End UpsertFacts.

Lemma forallb_false {A} (f : A → bool) (l : list A) :
  forallb f l = false ↔ ∃ x, x ∈ l ∧ f x = false.
Proof.
  induction l as [|a l IH]; simpl.
  - split; [done | intros (x & Hx & _); by apply elem_of_nil in Hx].
  - rewrite andb_false_iff, IH. split.
    + intros [Ha|(x & Hx & Hf)]; [exists a | exists x]; (split; [|done]).
      * by left.
      * by right.
    + intros (x & [->|Hx]%elem_of_cons & Hf); [by left | right; by eauto].
Qed.

Section SyncFacts.
Context `{Externals}.

Lemma forEach_upsertRole ts entries tx :
  forEach (upsertRole ts) entries tx =
  if upsertsAccepted roleAccepted entries
  then Some (mkDB (upsertAll roleCols ts entries (viz_roles tx))
                  (viz_roles_parents tx) (viz_resources tx) (viz_roles_resources tx))
  else None.
Proof.
  unfold upsertsAccepted.
  revert tx. induction entries as [|e rest IH]; [by intros []|]. intros tx.
  cbn [forEach forallb]. unfold upsertRole at 1.
  destruct (roleAccepted e); [|done]. by rewrite IH.
Qed.

Lemma forEach_upsertResource ts entries tx :
  forEach (upsertResource ts) entries tx =
  if upsertsAccepted resourceAccepted entries
  then Some (mkDB (viz_roles tx) (viz_roles_parents tx)
                  (upsertAll resourceCols ts entries (viz_resources tx))
                  (viz_roles_resources tx))
  else None.
Proof.
  unfold upsertsAccepted.
  revert tx. induction entries as [|e rest IH]; [by intros []|]. intros tx.
  cbn [forEach forallb]. unfold upsertResource at 1.
  destruct (resourceAccepted e); [|done]. by rewrite IH.
Qed.

Lemma forEach_upsertAssociation ts entries tx :
  forEach (upsertAssociation ts) entries tx =
  if upsertsAccepted assocAccepted entries
  then Some (mkDB (viz_roles tx) (viz_roles_parents tx) (viz_resources tx)
                  (upsertAll assocCols ts entries (viz_roles_resources tx)))
  else None.
Proof.
  unfold upsertsAccepted.
  revert tx. induction entries as [|e rest IH]; [by intros []|]. intros tx.
  cbn [forEach forallb]. unfold upsertAssociation at 1.
  destruct (assocAccepted e); [|done]. by rewrite IH.
Qed.

Lemma forEach_insertParent child parents tx :
  forEach (insertParent child) parents tx =
  if forallb (parentAccepted (dom (viz_roles tx)) child) parents
  then Some (mkDB (viz_roles tx)
                  (list_to_set ((λ p, (child, p)) <$> parents) ∪ viz_roles_parents tx)
                  (viz_resources tx) (viz_roles_resources tx))
  else None.
Proof.
  revert tx. induction parents as [|p rest IH]; intros tx; simpl.
  - destruct tx. simpl. f_equal. f_equal. set_solver.
  - unfold insertParent at 1. fold (parentAccepted (dom (viz_roles tx)) child p).
    destruct (parentAccepted (dom (viz_roles tx)) child p); [|done].
    simpl. rewrite IH. simpl.
    destruct (forallb _ rest); [|done]. f_equal. f_equal. set_solver.
Qed.

Lemma insertParents_forEach entry tx :
  insertParents entry tx =
  forEach (insertParent (DN entry)) (GetAttributeValues entry "nrfParentRoles") tx.
Proof.
  unfold insertParents. by destruct (GetAttributeValues entry "nrfParentRoles").
Qed.

Lemma forEach_insertParents entries tx :
  forEach insertParents entries tx =
  if parentsAccepted (dom (viz_roles tx)) entries
  then Some (mkDB (viz_roles tx) (parentPairs entries ∪ viz_roles_parents tx)
                  (viz_resources tx) (viz_roles_resources tx))
  else None.
Proof.
  unfold parentPairs.
  revert tx. induction entries as [|e rest IH]; intros tx; simpl.
  - destruct tx. simpl. f_equal. f_equal. set_solver.
  - rewrite insertParents_forEach, forEach_insertParent.
    destruct (forallb _ (GetAttributeValues e "nrfParentRoles")); [|done].
    simpl. rewrite IH. simpl.
    destruct (parentsAccepted _ rest); [|done]. f_equal. f_equal.
    rewrite list_to_set_app_L. set_solver.
Qed.

(** The role transaction in closed form. *)
Lemma rolesTx_closed entries ts db :
  rolesTx entries ts db =
  if upsertsAccepted roleAccepted entries
     && parentsAccepted (dom (viz_roles db) ∪ observed entries) entries
  then Some (mkDB (upsertAll roleCols ts entries (viz_roles db))
                  (parentPairs entries) (viz_resources db) (viz_roles_resources db))
  else None.
Proof.
  unfold rolesTx. rewrite forEach_upsertRole.
  destruct (upsertsAccepted roleAccepted entries); [|done]. simpl.
  rewrite forEach_insertParents. simpl. rewrite upsertAll_dom.
  destruct (parentsAccepted _ entries); [|done]. simpl. f_equal. f_equal. set_solver.
Qed.

Lemma upsertsAccepted_false ok entries :
  upsertsAccepted ok entries = false ↔ rowsFail ok entries.
Proof. unfold upsertsAccepted, rowsFail, upsertFails. apply forallb_false. Qed.

Lemma elem_of_observed e entries : e ∈ entries → DN e ∈ observed entries.
Proof. intros He. unfold observed. apply elem_of_list_to_set, list_elem_of_fmap. eauto. Qed.

Lemma parentAccepted_false entries db e p :
  e ∈ entries →
  parentAccepted (dom (viz_roles db) ∪ observed entries) (DN e) p = false ↔
  parentFails entries db e p.
Proof.
  intros He. unfold parentAccepted, parentFails.
  rewrite (bool_decide_true (DN e ∈ _))
    by (apply elem_of_union_r; by apply elem_of_observed).
  rewrite andb_true_r, andb_false_iff, bool_decide_eq_false. done.
Qed.

Lemma rolesAccepted_false entries db :
  upsertsAccepted roleAccepted entries
  && parentsAccepted (dom (viz_roles db) ∪ observed entries) entries = false ↔
  rolesFail entries db.
Proof.
  rewrite andb_false_iff, upsertsAccepted_false.
  unfold rolesFail, rowsFail, parentsAccepted. rewrite forallb_false.
  setoid_rewrite forallb_false. split.
  - intros [(e & He & Hf)|(e & He & p & Hp & Hf)]; exists e; (split; [done|]).
    + by left.
    + right. exists p. split; [done|]. by apply parentAccepted_false.
  - intros (e & He & [Hf|(p & Hp & Hf)]); [left; by eauto|].
    right. exists e. split; [done|]. exists p. split; [done|].
    by apply parentAccepted_false.
Qed.

End SyncFacts.

(** ** The lifecycle pass *)

Section LifecycleFacts.
Context {A : Type}.
Implicit Types (t : gmap string (Row A)) (r : Row A).

Lemma markRow_frame ts r :
  cols (markRow ts r) = cols r ∧
  created_at (markRow ts r) = created_at r ∧
  updated_at (markRow ts r) = updated_at r ∧
  is_deleted (markRow ts r) = is_deleted r || bool_decide (updated_at r < ts).
Proof.
  unfold markRow. destruct (bool_decide (updated_at r < ts)); simpl.
  - by rewrite orb_true_r.
  - by rewrite orb_false_r.
Qed.

Lemma purgeable_markRow ts b r :
  purgeable b (markRow ts r) = purgedByPass ts (Some b) r.
Proof.
  unfold purgeable, purgedByPass.
  destruct (markRow_frame ts r) as (_ & _ & -> & ->). apply andb_comm.
Qed.

(** One pass on one table, key by key. *)
Lemma pass_lookup ts bound t dn :
  passTable ts bound t !! dn =
  t !! dn ≫= λ r, if purgedByPass ts bound r then None else Some (markRow ts r).
Proof.
  destruct bound as [b|]; unfold passTable.
  - rewrite purgeOld_lookup, markStale_lookup.
    destruct (t !! dn) as [r|]; simpl; [|done]. by rewrite purgeable_markRow.
  - rewrite markStale_lookup. by destruct (t !! dn).
Qed.

(** A row that is neither marked nor stale is not purged, whatever the
    bound. *)
Lemma purgedByPass_current ts bound r :
  is_deleted r = false → ts ≤ updated_at r → purgedByPass ts bound r = false.
Proof.
  intros Hd Hu. destruct bound as [b|]; [|done]. unfold purgedByPass.
  rewrite Hd, (bool_decide_false (updated_at r < ts)) by lia. apply andb_false_r.
Qed.

(** A stale row is purged exactly when the bound is accepted and later
    than its updated_at. *)
Lemma purgedByPass_stale ts bound r :
  updated_at r < ts →
  purgedByPass ts bound r =
  match bound with Some b => bool_decide (updated_at r < b) | None => false end.
Proof.
  intros Hu. destruct bound as [b|]; [|done]. unfold purgedByPass.
  rewrite (bool_decide_true (updated_at r < ts)) by done.
  by rewrite orb_true_r, andb_true_r.
Qed.

End LifecycleFacts.

Lemma elem_of_cascade (deleted : gset string) (parents : gset (string * string)) c p :
  (c, p) ∈ cascade deleted parents ↔ (c, p) ∈ parents ∧ (c ∉ deleted) ∧ (p ∉ deleted).
Proof. unfold cascade. rewrite elem_of_filter. simpl. tauto. Qed.

Section PassTheorems.
Context `{Externals}.

(** The tables after the pass, through the bound of the pass. *)
Lemma markAndPurge_tables db ts days :
  viz_roles (markAndPurge db ts days)
    = passTable ts (purgeTimestamp ts days) (viz_roles db) ∧
  viz_resources (markAndPurge db ts days)
    = passTable ts (purgeTimestamp ts days) (viz_resources db) ∧
  viz_roles_resources (markAndPurge db ts days)
    = passTable ts (purgeTimestamp ts days) (viz_roles_resources db) ∧
  viz_roles_parents (markAndPurge db ts days)
    = match purgeTimestamp ts days with
      | Some b => cascade (purgedKeys b (markStale ts (viz_roles db))) (viz_roles_parents db)
      | None => viz_roles_parents db
      end.
Proof. unfold markAndPurge. by destruct (purgeTimestamp ts days). Qed.

Lemma markAndPurge_roles db ts days dn :
  viz_roles (markAndPurge db ts days) !! dn =
  viz_roles db !! dn ≫=
    λ r, if purgedByPass ts (purgeTimestamp ts days) r then None else Some (markRow ts r).
Proof.
  destruct (markAndPurge_tables db ts days) as (-> & _). apply pass_lookup.
Qed.

Lemma markAndPurge_resources db ts days dn :
  viz_resources (markAndPurge db ts days) !! dn =
  viz_resources db !! dn ≫=
    λ r, if purgedByPass ts (purgeTimestamp ts days) r then None else Some (markRow ts r).
Proof.
  destruct (markAndPurge_tables db ts days) as (_ & -> & _). apply pass_lookup.
Qed.

Lemma markAndPurge_associations db ts days dn :
  viz_roles_resources (markAndPurge db ts days) !! dn =
  viz_roles_resources db !! dn ≫=
    λ r, if purgedByPass ts (purgeTimestamp ts days) r then None else Some (markRow ts r).
Proof.
  destruct (markAndPurge_tables db ts days) as (_ & _ & -> & _). apply pass_lookup.
Qed.

(** A junction row survives the pass exactly when neither of its roles is
    purged. *)
Lemma markAndPurge_parents db ts days c p :
  (c, p) ∈ viz_roles_parents (markAndPurge db ts days) ↔
  (c, p) ∈ viz_roles_parents db ∧
  (∀ r, viz_roles db !! c = Some r → purgedByPass ts (purgeTimestamp ts days) r = false) ∧
  (∀ r, viz_roles db !! p = Some r → purgedByPass ts (purgeTimestamp ts days) r = false).
Proof.
  destruct (markAndPurge_tables db ts days) as (_ & _ & _ & ->).
  destruct (purgeTimestamp ts days) as [b|]; [|simpl; tauto].
  rewrite elem_of_cascade, !elem_of_purgedKeys.
  setoid_rewrite markStale_lookup.
  assert (∀ k, (¬ ∃ r, markRow ts <$> viz_roles db !! k = Some r
                       ∧ purgeable b r = true)
               ↔ ∀ r, viz_roles db !! k = Some r → purgedByPass ts (Some b) r = false) as Hk.
  { intros k. destruct (viz_roles db !! k) as [r0|]; simpl.
    - split.
      + intros Hn r [= <-]. rewrite <- purgeable_markRow.
        apply not_true_iff_false. intros Hp. apply Hn. eauto.
      + intros Hall (r & [= <-] & Hp). rewrite purgeable_markRow, Hall in Hp; done.
    - split; [done|]. intros _ (r & ? & _). done. }
  by rewrite !Hk.
Qed.


(** C10. The mark step changes nothing but is_deleted: on every entity
    table a row keeps its attribute columns, created_at and updated_at,
    and is_deleted becomes true exactly for the rows whose updated_at is
    earlier than the watermark; no row is added or removed and
    viz_roles_parents is left alone.  The purge test of the same pass
    therefore reads the updated_at the row had before it was marked: on
    each entity table a row leaves exactly when the store accepted the
    purge bound of the pass, that updated_at is earlier than the bound,
    and the row is stale or already marked; when the store refuses the
    bound every row stays, marked.  And a stale row that a pass at one
    watermark marked and kept is purged by a later pass exactly when the
    bound of the later pass is accepted and later than the updated_at the
    row had all along: the watermark of the pass that marked it plays no
    part. *)
Theorem mark_changes_only_is_deleted (ts days : Z) (db : DB) :
  (∀ A (r : Row A),
     cols (markRow ts r) = cols r ∧
     created_at (markRow ts r) = created_at r ∧
     updated_at (markRow ts r) = updated_at r ∧
     is_deleted (markRow ts r) = is_deleted r || bool_decide (updated_at r < ts)) ∧
  (∀ dn, viz_roles (markAll ts db) !! dn = markRow ts <$> viz_roles db !! dn) ∧
  (∀ dn, viz_resources (markAll ts db) !! dn = markRow ts <$> viz_resources db !! dn) ∧
  (∀ dn, viz_roles_resources (markAll ts db) !! dn =
         markRow ts <$> viz_roles_resources db !! dn) ∧
  viz_roles_parents (markAll ts db) = viz_roles_parents db ∧
  (∀ dn, viz_roles (markAndPurge db ts days) !! dn =
         viz_roles db !! dn ≫= λ r,
           match purgeTimestamp ts days with
           | Some bound =>
               if bool_decide (updated_at r < bound)
                  && (is_deleted r || bool_decide (updated_at r < ts))
               then None else Some (markRow ts r)
           | None => Some (markRow ts r)
           end) ∧
  (∀ dn, viz_resources (markAndPurge db ts days) !! dn =
         viz_resources db !! dn ≫= λ r,
           match purgeTimestamp ts days with
           | Some bound =>
               if bool_decide (updated_at r < bound)
                  && (is_deleted r || bool_decide (updated_at r < ts))
               then None else Some (markRow ts r)
           | None => Some (markRow ts r)
           end) ∧
  (∀ dn, viz_roles_resources (markAndPurge db ts days) !! dn =
         viz_roles_resources db !! dn ≫= λ r,
           match purgeTimestamp ts days with
           | Some bound =>
               if bool_decide (updated_at r < bound)
                  && (is_deleted r || bool_decide (updated_at r < ts))
               then None else Some (markRow ts r)
           | None => Some (markRow ts r)
           end) ∧
  (∀ dn r ts' days',
     viz_roles db !! dn = Some r → updated_at r < ts →
     viz_roles (markAndPurge db ts days) !! dn = Some (markRow ts r) →
     viz_roles (markAndPurge (markAndPurge db ts days) ts' days') !! dn =
     match purgeTimestamp ts' days' with
     | Some bound' =>
         if bool_decide (updated_at r < bound') then None
         else Some (mkRow (cols r) (created_at r) (updated_at r) true)
     | None => Some (mkRow (cols r) (created_at r) (updated_at r) true)
     end).
Proof.
  assert (∀ A (r : Row A),
    (if purgedByPass ts (purgeTimestamp ts days) r then None else Some (markRow ts r)) =
    match purgeTimestamp ts days with
    | Some bound =>
        if bool_decide (updated_at r < bound)
           && (is_deleted r || bool_decide (updated_at r < ts))
        then None else Some (markRow ts r)
    | None => Some (markRow ts r)
    end) as Htest.
  { intros A r. by destruct (purgeTimestamp ts days). }
  split; [intros A r; apply markRow_frame|].
  split; [intros dn; apply markStale_lookup|].
  split; [intros dn; apply markStale_lookup|].
  split; [intros dn; apply markStale_lookup|].
  split; [done|].
  split; [intros dn; rewrite markAndPurge_roles;
          destruct (viz_roles db !! dn); [apply Htest | done]|].
  split; [intros dn; rewrite markAndPurge_resources;
          destruct (viz_resources db !! dn); [apply Htest | done]|].
  split; [intros dn; rewrite markAndPurge_associations;
          destruct (viz_roles_resources db !! dn); [apply Htest | done]|].
  intros dn r ts' days' Hr Hu Hkept.
  assert (markRow ts r = mkRow (cols r) (created_at r) (updated_at r) true) as Hm.
  { unfold markRow. by rewrite bool_decide_true. }
  rewrite markAndPurge_roles, Hkept. simpl. rewrite Hm.
  assert (markRow ts' (mkRow (cols r) (created_at r) (updated_at r) true)
          = mkRow (cols r) (created_at r) (updated_at r) true) as ->.
  { unfold markRow. simpl. by destruct (bool_decide (updated_at r < ts')). }
  destruct (purgeTimestamp ts' days') as [b'|]; [|done].
  unfold purgedByPass. simpl. by rewrite andb_true_r.
Qed.


End PassTheorems.

Section SyncTheorems.
Context `{Externals}.

Lemma syncRoles_closed entries ts db :
  syncRoles (Some entries) ts db =
  if upsertsAccepted roleAccepted entries
     && parentsAccepted (dom (viz_roles db) ∪ observed entries) entries
  then mkDB (upsertAll roleCols ts entries (viz_roles db))
            (parentPairs entries) (viz_resources db) (viz_roles_resources db)
  else db.
Proof.
  unfold syncRoles. rewrite rolesTx_closed. by destruct (_ && _).
Qed.

Lemma syncResources_closed entries ts db :
  syncResources (Some entries) ts db =
  if upsertsAccepted resourceAccepted entries
  then mkDB (viz_roles db) (viz_roles_parents db)
            (upsertAll resourceCols ts entries (viz_resources db))
            (viz_roles_resources db)
  else db.
Proof.
  unfold syncResources, resourcesTx. rewrite forEach_upsertResource.
  by destruct (upsertsAccepted _ _).
Qed.

Lemma syncAssociations_closed entries ts db :
  syncAssociations (Some entries) ts db =
  if upsertsAccepted assocAccepted entries
  then mkDB (viz_roles db) (viz_roles_parents db) (viz_resources db)
            (upsertAll assocCols ts entries (viz_roles_resources db))
  else db.
Proof.
  unfold syncAssociations, associationsTx. rewrite forEach_upsertAssociation.
  by destruct (upsertsAccepted _ _).
Qed.

Lemma rolesAccepted_true entries db :
  ¬ rolesFail entries db →
  upsertsAccepted roleAccepted entries
  && parentsAccepted (dom (viz_roles db) ∪ observed entries) entries = true.
Proof. rewrite <- rolesAccepted_false. apply not_false_is_true. Qed.

Lemma upsertsAccepted_true ok entries :
  ¬ rowsFail ok entries → upsertsAccepted ok entries = true.
Proof. rewrite <- upsertsAccepted_false. apply not_false_is_true. Qed.

(** What the synchronizers leave alone. *)
Lemma syncRoles_frame found ts db :
  viz_resources (syncRoles found ts db) = viz_resources db ∧
  viz_roles_resources (syncRoles found ts db) = viz_roles_resources db.
Proof.
  destruct found as [entries|]; [|done]. rewrite syncRoles_closed.
  by destruct (_ && _).
Qed.

Lemma syncResources_frame found ts db :
  viz_roles (syncResources found ts db) = viz_roles db ∧
  viz_roles_parents (syncResources found ts db) = viz_roles_parents db ∧
  viz_roles_resources (syncResources found ts db) = viz_roles_resources db.
Proof.
  destruct found as [entries|]; [|done]. rewrite syncResources_closed.
  by destruct (upsertsAccepted _ _).
Qed.

Lemma syncAssociations_frame found ts db :
  viz_roles (syncAssociations found ts db) = viz_roles db ∧
  viz_roles_parents (syncAssociations found ts db) = viz_roles_parents db ∧
  viz_resources (syncAssociations found ts db) = viz_resources db.
Proof.
  destruct found as [entries|]; [|done]. rewrite syncAssociations_closed.
  by destruct (upsertsAccepted _ _).
Qed.

(** C5. Each synchronizer is atomic.  When the upsert of some entry of
    the result set is refused (or, for roles, the insertion of one of
    its parent pairs is refused or breaks a foreign key), the store after
    the synchronizer is the store before it, in every table.  When no
    statement fails, the synchronizer commits: its own table holds the
    upserts of the whole result set (and viz_roles_parents the pairs of
    the result set), the other tables are as before.  So a synchronizer
    that changes the store has had every row accepted. *)
Theorem synchronizers_atomic (entries : list Entry) (ts : Z) (db : DB) :
  (rolesFail entries db → syncRoles (Some entries) ts db = db) ∧
  (¬ rolesFail entries db →
     syncRoles (Some entries) ts db =
     mkDB (upsertAll roleCols ts entries (viz_roles db)) (parentPairs entries)
          (viz_resources db) (viz_roles_resources db)) ∧
  (syncRoles (Some entries) ts db ≠ db → ¬ rolesFail entries db) ∧
  (rowsFail resourceAccepted entries → syncResources (Some entries) ts db = db) ∧
  (¬ rowsFail resourceAccepted entries →
     syncResources (Some entries) ts db =
     mkDB (viz_roles db) (viz_roles_parents db)
          (upsertAll resourceCols ts entries (viz_resources db))
          (viz_roles_resources db)) ∧
  (syncResources (Some entries) ts db ≠ db → ¬ rowsFail resourceAccepted entries) ∧
  (rowsFail assocAccepted entries → syncAssociations (Some entries) ts db = db) ∧
  (¬ rowsFail assocAccepted entries →
     syncAssociations (Some entries) ts db =
     mkDB (viz_roles db) (viz_roles_parents db) (viz_resources db)
          (upsertAll assocCols ts entries (viz_roles_resources db))) ∧
  (syncAssociations (Some entries) ts db ≠ db → ¬ rowsFail assocAccepted entries).
Proof.
  assert (rolesFail entries db → syncRoles (Some entries) ts db = db) as HR.
  { intros Hf%rolesAccepted_false. by rewrite syncRoles_closed, Hf. }
  assert (rowsFail resourceAccepted entries → syncResources (Some entries) ts db = db) as HS.
  { intros Hf%upsertsAccepted_false. by rewrite syncResources_closed, Hf. }
  assert (rowsFail assocAccepted entries → syncAssociations (Some entries) ts db = db) as HA.
  { intros Hf%upsertsAccepted_false. by rewrite syncAssociations_closed, Hf. }
  split; [exact HR|]. split.
  { intros Hok%rolesAccepted_true. by rewrite syncRoles_closed, Hok. }
  split; [intros Hne Hf; by apply Hne, HR|].
  split; [exact HS|]. split.
  { intros Hok%upsertsAccepted_true. by rewrite syncResources_closed, Hok. }
  split; [intros Hne Hf; by apply Hne, HS|].
  split; [exact HA|]. split.
  { intros Hok%upsertsAccepted_true. by rewrite syncAssociations_closed, Hok. }
  intros Hne Hf; by apply Hne, HA.
Qed.

(** C4. Running the role synchronizer twice on the same search result
    changes, in the second run, nothing but updated_at: the rows of
    viz_roles agree in every other column (attribute columns, created_at,
    is_deleted) and are the same rows, viz_roles_parents holds the same
    pairs, and the other tables are untouched. *)
Theorem syncRoles_twice (found : option (list Entry)) (ts1 ts2 : Z) (db : DB) :
  let db1 := syncRoles found ts1 db in
  let db2 := syncRoles found ts2 db1 in
  withoutUpdatedAt <$> viz_roles db2 = withoutUpdatedAt <$> viz_roles db1 ∧
  viz_roles_parents db2 = viz_roles_parents db1 ∧
  viz_resources db2 = viz_resources db1 ∧
  viz_roles_resources db2 = viz_roles_resources db1.
Proof.
  intros db1 db2. destruct found as [entries|]; [|done].
  unfold db2, db1. rewrite (syncRoles_closed entries ts1 db).
  destruct (_ && _) eqn:Hok.
  - rewrite syncRoles_closed. simpl. rewrite upsertAll_dom.
    replace (dom (viz_roles db) ∪ observed entries ∪ observed entries)
      with (dom (viz_roles db) ∪ observed entries) by set_solver.
    rewrite Hok. simpl. split; [|done].
    apply map_eq. intros dn. rewrite !lookup_fmap, !upsertAll_lookup.
    destruct (lastWith dn entries) as [e|]; [|done]. simpl.
    by destruct (viz_roles db !! dn).
  - by rewrite syncRoles_closed, Hok.
Qed.

(** C9. An upsert of a key that is already in the table keeps the
    created_at of the row, sets updated_at to the watermark of the run
    and is_deleted to false; created_at is the watermark only for a key
    that was not in the table.  This holds for the statement of each of
    the three tables and for every observed key after a synchronizer
    that commits. *)
Theorem upsert_keeps_created_at (ts : Z) (db : DB) :
  (∀ e tx old, viz_roles db !! DN e = Some old → upsertRole ts e db = Some tx →
     viz_roles tx !! DN e = Some (mkRow (roleCols e) (created_at old) ts false)) ∧
  (∀ e tx old, viz_resources db !! DN e = Some old → upsertResource ts e db = Some tx →
     viz_resources tx !! DN e = Some (mkRow (resourceCols e) (created_at old) ts false)) ∧
  (∀ e tx old, viz_roles_resources db !! DN e = Some old →
     upsertAssociation ts e db = Some tx →
     viz_roles_resources tx !! DN e = Some (mkRow (assocCols e) (created_at old) ts false)) ∧
  (∀ e tx, viz_roles db !! DN e = None → upsertRole ts e db = Some tx →
     viz_roles tx !! DN e = Some (mkRow (roleCols e) ts ts false)) ∧
  (∀ entries dn old, viz_roles db !! dn = Some old → dn ∈ observed entries →
     ¬ rolesFail entries db →
     ∃ r, viz_roles (syncRoles (Some entries) ts db) !! dn = Some r ∧
          created_at r = created_at old ∧ updated_at r = ts ∧ is_deleted r = false) ∧
  (∀ entries dn old, viz_resources db !! dn = Some old → dn ∈ observed entries →
     ¬ rowsFail resourceAccepted entries →
     ∃ r, viz_resources (syncResources (Some entries) ts db) !! dn = Some r ∧
          created_at r = created_at old ∧ updated_at r = ts ∧ is_deleted r = false) ∧
  (∀ entries dn old, viz_roles_resources db !! dn = Some old → dn ∈ observed entries →
     ¬ rowsFail assocAccepted entries →
     ∃ r, viz_roles_resources (syncAssociations (Some entries) ts db) !! dn = Some r ∧
          created_at r = created_at old ∧ updated_at r = ts ∧ is_deleted r = false).
Proof.
  split; [|split; [|split; [|split; [|split; [|split]]]]].
  - intros e tx old Hold. unfold upsertRole.
    destruct (roleAccepted e); [|done]. intros [= <-]. simpl.
    by rewrite upsert_lookup_eq, Hold.
  - intros e tx old Hold. unfold upsertResource.
    destruct (resourceAccepted e); [|done]. intros [= <-]. simpl.
    by rewrite upsert_lookup_eq, Hold.
  - intros e tx old Hold. unfold upsertAssociation.
    destruct (assocAccepted e); [|done]. intros [= <-]. simpl.
    by rewrite upsert_lookup_eq, Hold.
  - intros e tx Hnew. unfold upsertRole.
    destruct (roleAccepted e); [|done]. intros [= <-]. simpl.
    by rewrite upsert_lookup_eq, Hnew.
  - intros entries dn old Hold Hobs Hok%rolesAccepted_true.
    rewrite syncRoles_closed, Hok. simpl. rewrite upsertAll_lookup, Hold.
    destruct (lastWith dn entries) eqn:Hl; [by eexists|].
    by apply lastWith_None in Hl.
  - intros entries dn old Hold Hobs Hok%upsertsAccepted_true.
    rewrite syncResources_closed, Hok. simpl. rewrite upsertAll_lookup, Hold.
    destruct (lastWith dn entries) eqn:Hl; [by eexists|].
    by apply lastWith_None in Hl.
  - intros entries dn old Hold Hobs Hok%upsertsAccepted_true.
    rewrite syncAssociations_closed, Hok. simpl. rewrite upsertAll_lookup, Hold.
    destruct (lastWith dn entries) eqn:Hl; [by eexists|].
    by apply lastWith_None in Hl.
Qed.

End SyncTheorems.

(** ** Watermark and observation *)

Section Watermark.
Context {A : Type}.
Variable colsOf : Entry → A.
Implicit Types (t : gmap string (Row A)).

(** One table through a committed loop of upserts and the lifecycle
    pass of the same run. *)
Lemma committed_table_watermark ts bound entries t dn :
  (∀ k r, t !! k = Some r → updated_at r < ts) →
  let t' := passTable ts bound (upsertAll colsOf ts entries t) in
  ((∃ r, t' !! dn = Some r ∧ updated_at r = ts) ↔ dn ∈ observed entries) ∧
  (∀ r, t' !! dn = Some r → dn ∉ observed entries → updated_at r < ts).
Proof.
  intros Hold t'. unfold t'. rewrite pass_lookup, upsertAll_lookup.
  destruct (lastWith dn entries) as [e|] eqn:Hl.
  - apply lastWith_Some in Hl as [He <-]. apply elem_of_observed in He.
    simpl. rewrite purgedByPass_current by (simpl; first [done | lia]).
    unfold markRow. simpl. rewrite (bool_decide_false (ts < ts)) by lia.
    split; [|done]. split; [done|]. intros _. by eexists.
  - apply lastWith_None in Hl. destruct (t !! dn) as [r0|] eqn:Hr0; simpl.
    + specialize (Hold _ _ Hr0).
      destruct (purgedByPass ts bound r0).
      * split; [|done]. split; [by intros (r & ? & _) | done].
      * destruct (markRow_frame ts r0) as (_ & _ & Hu & _).
        split; [|intros r [= <-] _; lia].
        split; [|done]. intros (r & [= <-] & Hr). lia.
    + split; [|done]. split; [by intros (r & ? & _) | done].
Qed.

(** One table that no synchronizer touched, through the pass. *)
Lemma untouched_table_updated_at ts bound t dn r :
  passTable ts bound t !! dn = Some r →
  ∃ r0, t !! dn = Some r0 ∧ updated_at r = updated_at r0.
Proof.
  rewrite pass_lookup. destruct (t !! dn) as [r0|]; simpl; [|done].
  destruct (purgedByPass ts bound r0); [done|]. intros [= <-].
  exists r0. split; [done|]. by destruct (markRow_frame ts r0) as (_ & _ & -> & _).
Qed.

End Watermark.

Section RunTheorems.
Context `{Externals}.

Lemma run_roles dir ts days db :
  viz_roles (run dir ts days db) =
  passTable ts (purgeTimestamp ts days)
    (viz_roles (syncRoles (foundRoles dir) ts db)).
Proof.
  unfold run. destruct (markAndPurge_tables
    (syncAssociations (foundAssociations dir) ts
       (syncResources (foundResources dir) ts (syncRoles (foundRoles dir) ts db)))
    ts days) as (-> & _).
  destruct (syncAssociations_frame (foundAssociations dir) ts
              (syncResources (foundResources dir) ts
                 (syncRoles (foundRoles dir) ts db))) as (-> & _).
  by destruct (syncResources_frame (foundResources dir) ts
                 (syncRoles (foundRoles dir) ts db)) as (-> & _).
Qed.

Lemma run_resources dir ts days db :
  viz_resources (run dir ts days db) =
  passTable ts (purgeTimestamp ts days)
    (viz_resources (syncResources (foundResources dir) ts
                      (syncRoles (foundRoles dir) ts db))).
Proof.
  unfold run. destruct (markAndPurge_tables
    (syncAssociations (foundAssociations dir) ts
       (syncResources (foundResources dir) ts (syncRoles (foundRoles dir) ts db)))
    ts days) as (_ & -> & _).
  by destruct (syncAssociations_frame (foundAssociations dir) ts
              (syncResources (foundResources dir) ts
                 (syncRoles (foundRoles dir) ts db))) as (_ & _ & ->).
Qed.

Lemma run_associations dir ts days db :
  viz_roles_resources (run dir ts days db) =
  passTable ts (purgeTimestamp ts days)
    (viz_roles_resources
       (syncAssociations (foundAssociations dir) ts
          (syncResources (foundResources dir) ts
             (syncRoles (foundRoles dir) ts db)))).
Proof.
  unfold run. by destruct (markAndPurge_tables
    (syncAssociations (foundAssociations dir) ts
       (syncResources (foundResources dir) ts (syncRoles (foundRoles dir) ts db)))
    ts days) as (_ & _ & -> & _).
Qed.

(** C1 (as the code has it). Take a run whose watermark is later than
    the updated_at of every row already in a table.  For an entity type
    whose search succeeded and whose synchronizer committed (no
    statement failed), a key has a row with updated_at equal to the
    watermark at the end of the run exactly when the key was in the
    result set of the run, and every other remaining row has an
    updated_at strictly earlier than the watermark.  When the
    synchronizer of an entity type rolls back, the rows of its table that
    remain keep the updated_at they had before the run, observed or
    not. *)
Theorem updated_at_marks_observed (dir : Directory) (ts days : Z) (db : DB) :
  let db' := run dir ts days db in
  (∀ entries, foundRoles dir = Some entries → ¬ rolesFail entries db →
     (∀ k r, viz_roles db !! k = Some r → updated_at r < ts) →
     ∀ dn, ((∃ r, viz_roles db' !! dn = Some r ∧ updated_at r = ts) ↔
            dn ∈ observed entries) ∧
           (∀ r, viz_roles db' !! dn = Some r → dn ∉ observed entries →
                 updated_at r < ts)) ∧
  (∀ entries, foundResources dir = Some entries → ¬ rowsFail resourceAccepted entries →
     (∀ k r, viz_resources db !! k = Some r → updated_at r < ts) →
     ∀ dn, ((∃ r, viz_resources db' !! dn = Some r ∧ updated_at r = ts) ↔
            dn ∈ observed entries) ∧
           (∀ r, viz_resources db' !! dn = Some r → dn ∉ observed entries →
                 updated_at r < ts)) ∧
  (∀ entries, foundAssociations dir = Some entries → ¬ rowsFail assocAccepted entries →
     (∀ k r, viz_roles_resources db !! k = Some r → updated_at r < ts) →
     ∀ dn, ((∃ r, viz_roles_resources db' !! dn = Some r ∧ updated_at r = ts) ↔
            dn ∈ observed entries) ∧
           (∀ r, viz_roles_resources db' !! dn = Some r → dn ∉ observed entries →
                 updated_at r < ts)) ∧
  (∀ entries, foundRoles dir = Some entries → rolesFail entries db →
     ∀ dn r, viz_roles db' !! dn = Some r →
             ∃ r0, viz_roles db !! dn = Some r0 ∧ updated_at r = updated_at r0) ∧
  (∀ entries, foundResources dir = Some entries → rowsFail resourceAccepted entries →
     ∀ dn r, viz_resources db' !! dn = Some r →
             ∃ r0, viz_resources db !! dn = Some r0 ∧ updated_at r = updated_at r0) ∧
  (∀ entries, foundAssociations dir = Some entries → rowsFail assocAccepted entries →
     ∀ dn r, viz_roles_resources db' !! dn = Some r →
             ∃ r0, viz_roles_resources db !! dn = Some r0 ∧
                   updated_at r = updated_at r0).
Proof.
  intros db'. unfold db'. split; [|split; [|split; [|split; [|split]]]].
  - intros entries Hfound Hok%rolesAccepted_true Hold dn.
    rewrite run_roles, Hfound, syncRoles_closed, Hok. simpl.
    by apply committed_table_watermark.
  - intros entries Hfound Hok%upsertsAccepted_true Hold dn.
    rewrite run_resources, Hfound, syncResources_closed, Hok. simpl.
    destruct (syncRoles_frame (foundRoles dir) ts db) as (-> & _).
    by apply committed_table_watermark.
  - intros entries Hfound Hok%upsertsAccepted_true Hold dn.
    rewrite run_associations, Hfound, syncAssociations_closed, Hok. simpl.
    destruct (syncResources_frame (foundResources dir) ts
                (syncRoles (foundRoles dir) ts db)) as (_ & _ & ->).
    destruct (syncRoles_frame (foundRoles dir) ts db) as (_ & ->).
    by apply committed_table_watermark.
  - intros entries Hfound Hf%rolesAccepted_false dn r.
    rewrite run_roles, Hfound, syncRoles_closed, Hf.
    apply untouched_table_updated_at.
  - intros entries Hfound Hf%upsertsAccepted_false dn r.
    rewrite run_resources, Hfound, syncResources_closed, Hf.
    destruct (syncRoles_frame (foundRoles dir) ts db) as (-> & _).
    apply untouched_table_updated_at.
  - intros entries Hfound Hf%upsertsAccepted_false dn r.
    rewrite run_associations, Hfound, syncAssociations_closed, Hf.
    destruct (syncResources_frame (foundResources dir) ts
                (syncRoles (foundRoles dir) ts db)) as (_ & _ & ->).
    destruct (syncRoles_frame (foundRoles dir) ts db) as (_ & ->).
    apply untouched_table_updated_at.
Qed.

(** C3 (as the code has it). The directory returns one role whose
    parent attribute names a key that is neither the role itself nor a
    row of viz_roles.  Then the insertion of that pair, tried on the
    state the upsert of the role leaves, fails on its foreign key; the
    role transaction is rolled back as a whole, so the store is what it
    was before the synchronizer: the role is not upserted, the parent
    key is still absent, and the pair is not in viz_roles_parents. *)
Theorem missing_parent_rolls_back (db : DB) (e : Entry) (p : string) (ts : Z) :
  p ∈ GetAttributeValues e "nrfParentRoles" →
  p ≠ DN e →
  p ∉ dom (viz_roles db) →
  fk_ok db →
  let db' := syncRoles (Some [e]) ts db in
  (∀ tx, upsertRole ts e db = Some tx →
         insertParent (DN e) p (deleteParents tx) = None) ∧
  db' = db ∧
  (p ∉ dom (viz_roles db')) ∧
  (DN e, p) ∉ viz_roles_parents db'.
Proof.
  intros Hp Hne Hdom Hfk db'.
  assert (db' = db) as Hdb.
  { unfold db'. rewrite syncRoles_closed.
    replace (_ && _) with false; [done|]. symmetry.
    apply rolesAccepted_false. exists e. split; [by left|]. right.
    exists p. split; [done|]. right. unfold observed. simpl. set_solver. }
  split; [|split; [done|]].
  - intros tx. unfold upsertRole. destruct (roleAccepted e); [|done].
    intros [= <-]. unfold insertParent, deleteParents. simpl.
    rewrite upsert_dom.
    rewrite (bool_decide_false (p ∈ _)) by set_solver.
    by rewrite andb_false_r.
  - rewrite Hdb. split; [done|]. intros Hin. by apply Hfk in Hin as [_ ?].
Qed.

(** Referential integrity is kept by the role synchronizer and by the
    lifecycle pass. *)
Lemma syncRoles_fk_ok found ts db : fk_ok db → fk_ok (syncRoles found ts db).
Proof.
  intros Hfk. destruct found as [entries|]; [|done].
  rewrite syncRoles_closed. destruct (_ && _) eqn:Hok; [|done].
  apply andb_true_iff in Hok as [_ Hok].
  intros c p. simpl. rewrite upsertAll_dom. unfold parentPairs.
  rewrite elem_of_list_to_set, list_elem_of_bind.
  intros (e & (p' & [= -> ->] & Hp)%list_elem_of_fmap & He).
  unfold parentsAccepted in Hok. rewrite forallb_forall in Hok.
  apply list_elem_of_In, Hok in He. rewrite forallb_forall in He.
  apply list_elem_of_In, He in Hp. unfold parentAccepted in Hp.
  apply andb_true_iff in Hp as [[_ Hc%bool_decide_eq_true]%andb_true_iff
                                Hp%bool_decide_eq_true].
  done.
Qed.

Lemma markAndPurge_fk_ok db ts days : fk_ok db → fk_ok (markAndPurge db ts days).
Proof.
  intros Hfk c p (Hin & Hc & Hp)%markAndPurge_parents.
  destruct (Hfk _ _ Hin) as [[rc Hrc]%elem_of_dom [rp Hrp]%elem_of_dom].
  rewrite !elem_of_dom, !markAndPurge_roles, Hrc, Hrp. simpl.
  rewrite (Hc _ Hrc), (Hp _ Hrp). split; by eexists.
Qed.

Lemma run_fk_ok dir ts days db : fk_ok db → fk_ok (run dir ts days db).
Proof.
  intros Hfk. unfold run. apply markAndPurge_fk_ok.
  pose proof (syncRoles_fk_ok (foundRoles dir) ts db Hfk) as Hfk1.
  set (db1 := syncRoles (foundRoles dir) ts db) in *.
  destruct (syncResources_frame (foundResources dir) ts db1) as (Hr & Hp & _).
  set (db2 := syncResources (foundResources dir) ts db1) in *.
  destruct (syncAssociations_frame (foundAssociations dir) ts db2) as (Hr' & Hp' & _).
  intros c p. rewrite Hp', Hr', Hp, Hr. apply Hfk1.
Qed.


End RunTheorems.

(** ** Counterexamples *)

(** C1. Two runs on which the equivalence fails.  In the first, R1 is in
    the result set of the run at 1000 and every row of the store is older
    than the watermark, but the pair (R1, R2) breaks the foreign key, the
    role transaction is rolled back, and R1 ends the run with its old
    updated_at (and marked deleted).  In the second, two runs carry the
    same watermark (it has a resolution of one second): R2 was stamped by
    the first and is not in the result set of the second, yet its
    updated_at equals the watermark. *)
Lemma observed_but_not_stamped :
  let db' := run (H := Demo.externals) dirR1 1000 7 storeR1 in
  let db2 := run (H := Demo.externals) dirNothing 1000 7
               (run (H := Demo.externals) dirR2 1000 7 emptyDB) in
  ("R1" ∈ observed [roleR1] ∧
   (∀ k r, viz_roles storeR1 !! k = Some r → updated_at r < 1000) ∧
   viz_roles db' !! "R1" = Some (mkRow someCols 100 900 true) ∧
   ¬ ((∃ r, viz_roles db' !! "R1" = Some r ∧ updated_at r = 1000) ↔
      "R1" ∈ observed [roleR1])) ∧
  (("R2" ∉ observed []) ∧
   (∃ r, viz_roles db2 !! "R2" = Some r ∧ updated_at r = 1000) ∧
   ¬ ((∃ r, viz_roles db2 !! "R2" = Some r ∧ updated_at r = 1000) ↔
      "R2" ∈ observed [])).
Proof.
  assert ("R1" ∈ observed [roleR1]) as Hobs
    by (unfold observed; simpl; set_solver).
  assert (viz_roles (run (H := Demo.externals) dirR1 1000 7 storeR1) !! "R1" =
          Some (mkRow someCols 100 900 true)) as Hrow by (vm_compute; reflexivity).
  assert ("R2" ∉ observed []) as Hnot by apply not_elem_of_empty.
  assert (∃ r, viz_roles (run (H := Demo.externals) dirNothing 1000 7
                            (run (H := Demo.externals) dirR2 1000 7 emptyDB))
                 !! "R2" = Some r ∧ updated_at r = 1000) as Hstamped
    by (eexists; split; [vm_compute; reflexivity | reflexivity]).
  split.
  - split; [exact Hobs|]. split.
    { intros k r. unfold storeR1. simpl. intros [_ <-]%lookup_singleton_Some.
      simpl. lia. }
    split; [exact Hrow|].
    intros [_ Hiff]. destruct (Hiff Hobs) as (r & Hr & Hu).
    rewrite Hrow in Hr. injection Hr as <-. simpl in Hu. lia.
  - split; [exact Hnot|]. split; [exact Hstamped|].
    intros [Hiff _]. by apply Hnot, Hiff.
Qed.


(** C3. The directory returns R1 alone, with parent R2.  Into an empty
    store: after the synchronizer viz_roles does not hold R1, it is empty.
    Into a store that still has a row R2 from an earlier run: the
    insertion passes the foreign key and the pair (R1, R2) is stored. *)
Lemma role_with_missing_parent_not_stored :
  let db' := syncRoles (H := Demo.externals) (Some [roleR1]) 1000 emptyDB in
  let db2 := syncRoles (H := Demo.externals) (Some [roleR1]) 1000 storeR2 in
  GetAttributeValues roleR1 "nrfParentRoles" = ["R2"] ∧
  (viz_roles db' = ∅ ∧ ¬ (dom (viz_roles db') = {[ "R1" ]})) ∧
  (("R2" ∉ observed [roleR1]) ∧ ¬ (("R1", "R2") ∉ viz_roles_parents db2)).
Proof.
  assert (viz_roles (syncRoles (H := Demo.externals) (Some [roleR1]) 1000 emptyDB) = ∅)
    as Hempty by (vm_compute; reflexivity).
  assert (viz_roles_parents
            (syncRoles (H := Demo.externals) (Some [roleR1]) 1000 storeR2)
          = {[ ("R1", "R2") ]}) as Hpairs by (vm_compute; reflexivity).
  split; [reflexivity|]. split.
  - split; [exact Hempty|].
    rewrite Hempty, dom_empty_L. intros Heq.
    assert ("R1" ∈ (∅ : gset string)) as Hin
      by (rewrite Heq; by apply elem_of_singleton).
    by apply not_elem_of_empty in Hin.
  - split.
    + apply lastWith_None. reflexivity.
    + rewrite Hpairs. intros Hn. apply Hn. by apply elem_of_singleton.
Qed.


(** ** The theorems on the samples *)

Lemma storeR1_older (k : string) (r : Row RoleCols) :
  viz_roles storeR1 !! k = Some r → updated_at r < 1000.
Proof.
  unfold storeR1. simpl. intros [_ <-]%lookup_singleton_Some. simpl. lia.
Qed.

Lemma rolesR1R2_accepted : ¬ rolesFail (H := Demo.externals) [roleR1; roleR2] storeR1.
Proof. intros Hf%rolesAccepted_false. vm_compute in Hf. discriminate. Qed.

Lemma rolesR1_fail : rolesFail (H := Demo.externals) [roleR1] emptyDB.
Proof. apply rolesAccepted_false. vm_compute. reflexivity. Qed.

Lemma rolesR1_fail_storeR1 : rolesFail (H := Demo.externals) [roleR1] storeR1.
Proof. apply rolesAccepted_false. vm_compute. reflexivity. Qed.

Lemma emptyDB_fk_ok : fk_ok emptyDB.
Proof. intros c p Hin. by apply not_elem_of_empty in Hin. Qed.

(** C1 on the samples: the run at 1000 that finds R1 and R2 stamps R1,
    and the run that rolls back leaves R1 at 900. *)
Lemma updated_at_marks_observed_witness :
  (∃ r, viz_roles (run (H := Demo.externals) dirAll 1000 7 storeR1) !! "R1" = Some r
        ∧ updated_at r = 1000) ∧
  (∃ r0, viz_roles storeR1 !! "R1" = Some r0 ∧ updated_at r0 = 900).
Proof.
  split.
  - destruct (updated_at_marks_observed (H := Demo.externals) dirAll 1000 7 storeR1)
      as (Hroles & _).
    destruct (Hroles [roleR1; roleR2] eq_refl rolesR1R2_accepted storeR1_older "R1")
      as [Hiff _].
    apply Hiff. unfold observed. simpl. set_solver.
  - destruct (updated_at_marks_observed (H := Demo.externals) dirR1 1000 7 storeR1)
      as (_ & _ & _ & Hback & _).
    destruct (Hback [roleR1] eq_refl rolesR1_fail_storeR1 "R1"
                (mkRow someCols 100 900 true)) as (r0 & Hr0 & Hu);
      [vm_compute; reflexivity|].
    exists r0. split; [exact Hr0|]. simpl in Hu. lia.
Defined.


(** C3 on the samples: R1 with the missing parent R2, into the empty
    store. *)
Lemma missing_parent_rolls_back_witness :
  syncRoles (H := Demo.externals) (Some [roleR1]) 1000 emptyDB = emptyDB ∧
  ("R1", "R2") ∉ viz_roles_parents
                   (syncRoles (H := Demo.externals) (Some [roleR1]) 1000 emptyDB).
Proof.
  destruct (missing_parent_rolls_back (H := Demo.externals) emptyDB roleR1 "R2" 1000)
    as (_ & Hdb & _ & Hpair).
  - vm_compute. apply list_elem_of_here.
  - discriminate.
  - apply not_elem_of_empty.
  - exact emptyDB_fk_ok.
  - split; [exact Hdb | exact Hpair].
Defined.

(** C5 on the samples: the role transaction with the missing parent and
    the one with the refused byte leave the store as it was; the one that
    finds both roles commits both rows and the pair. *)
Lemma synchronizers_atomic_witness :
  syncRoles (H := Demo.externals) (Some [roleR1]) 1000 emptyDB = emptyDB ∧
  syncRoles (H := Demo.externals) (Some [roleR2; roleBad]) 1000 storeR1 = storeR1 ∧
  viz_roles_parents (syncRoles (H := Demo.externals) (Some [roleR1; roleR2]) 1000 storeR1)
    = {[ ("R1", "R2") ]}.
Proof.
  split; [|split].
  - destruct (synchronizers_atomic (H := Demo.externals) [roleR1] 1000 emptyDB)
      as (Hfail & _).
    apply Hfail. exact rolesR1_fail.
  - destruct (synchronizers_atomic (H := Demo.externals) [roleR2; roleBad] 1000 storeR1)
      as (Hfail & _).
    apply Hfail. apply rolesAccepted_false. vm_compute. reflexivity.
  - destruct (synchronizers_atomic (H := Demo.externals) [roleR1; roleR2] 1000 storeR1)
      as (_ & Hok & _).
    rewrite (Hok rolesR1R2_accepted). vm_compute. reflexivity.
Defined.

(** C6 on the sample of the specification. *)
Lemma parseLocalizedAttributes_spec_witness :
  parseLocalizedAttributes "en~Hello|de~Hallo" !! "en" = Some "Hello" ∧
  List.length (SplitN "en~Hello" "~" 2) = 2%nat.
Proof.
  destruct (parseLocalizedAttributes_spec "en~Hello|de~Hallo")
    as (_ & _ & Hlookup & Hlen & _).
  split.
  - apply Hlookup. exists [], ["de~Hallo"]. split; [reflexivity|].
    split; [reflexivity|]. constructor; [|constructor].
    intros v'. vm_compute. discriminate.
  - apply Hlen. reflexivity.
Defined.

(** C7 on the sample of the specification: a reference that is a driver
    name alone. *)
Lemma decodeEntitlementRef_driverOnly :
  let r := decodeEntitlementRef (H := Demo.externals) "driverOnly" in
  (Count "driverOnly" "#" < 2)%nat ∧
  SplitN "driverOnly" "#" 3 = [entitlementDriver r] ∧
  entitlementDriver r = "driverOnly" ∧ entitlementStatus r = EmptyString ∧
  entitlementXML r = EmptyString ∧ entitlementXMLSrc r = EmptyString ∧
  entitlementXMLID r = EmptyString ∧ entitlementXMLParamID r = EmptyString ∧
  entitlementXMLParamID2 r = EmptyString ∧ entitlementXMLParamID3 r = EmptyString.
Proof.
  assert (Count "driverOnly" "#" < 2)%nat as Hcount by (vm_compute; lia).
  destruct (decodeEntitlementRef_few_delimiters (H := Demo.externals) "driverOnly" Hcount)
    as (_ & _ & _ & Hparts & Hstatus & Hrest).
  split; [exact Hcount|]. split; [exact Hparts|]. split; [reflexivity|].
  split; [by apply Hstatus | exact Hrest].
Defined.



(** C9 on the samples: R1, created at 100, is observed again at 1000. *)
Lemma upsert_keeps_created_at_witness :
  ∃ r, viz_roles (syncRoles (H := Demo.externals) (Some [roleR1; roleR2]) 1000 storeR1)
         !! "R1" = Some r ∧
       created_at r = 100 ∧ updated_at r = 1000 ∧ is_deleted r = false.
Proof.
  destruct (upsert_keeps_created_at (H := Demo.externals) 1000 storeR1)
    as (_ & _ & _ & _ & Hsync & _).
  apply (Hsync [roleR1; roleR2] "R1" (mkRow someCols 100 900 false)).
  - vm_compute. reflexivity.
  - unfold observed. simpl. set_solver.
  - exact rolesR1R2_accepted.
Defined.

(** * Further properties of the code *)

(** ** More on the string functions *)

Section MoreStringFacts.
Variable c : ascii.

Lemma Contains_append (s t : string) :
  Contains (s ++ t) c = Contains s c || Contains t c.
Proof.
  induction s as [|a s IH]; [done|]. rewrite append_cons.
  destruct (Contains (String a s) c) eqn:Hs.
  - apply not_false_iff_true. intros Hn. apply Contains_cons in Hn as [Hne Hn].
    rewrite IH in Hn. apply orb_false_iff in Hn as [Hn _].
    assert (Contains (String a s) c = false) by (by apply Contains_cons). congruence.
  - apply Contains_cons in Hs as [Hne Hs]. rewrite Hs in IH. simpl in *.
    destruct (Contains t c) eqn:Ht.
    + apply not_false_iff_true. intros Hn. apply Contains_cons in Hn as [_ Hn]. congruence.
    + by apply Contains_cons.
Qed.

Lemma Split_cons (s before after : string) :
  cutAt c s = Some (before, after) → Split s c = before :: Split after c.
Proof.
  intros Hcut. rewrite !Split_genSplit, (cutAt_Count _ _ _ _ Hcut).
  simpl. by rewrite Hcut.
Qed.

(** Splitting what [Join] made gives the parts back, when no part holds
    the separator. *)
Lemma Split_Join_parts (parts : list string) :
  parts ≠ [] → Forall (λ p, Contains p c = false) parts →
  Split (Join parts (String c EmptyString)) c = parts.
Proof.
  induction parts as [|x rest IH]; [done|]. intros _ Hall.
  apply Forall_cons in Hall as [Hx Hrest].
  destruct rest as [|y rest]; [by apply Split_no_separator|].
  rewrite Join_cons by done.
  rewrite (Split_cons _ x (Join (y :: rest) (String c EmptyString))).
  - f_equal. by apply IH.
  - apply cutAt_Some. by str_simpl.
Qed.

(** A byte other than the separator is in the joined text exactly when
    it is in one of the parts. *)
Lemma Contains_Join (d : ascii) (parts : list string) :
  d ≠ c → Contains (Join parts (String d EmptyString)) c = existsb (λ p, Contains p c) parts.
Proof.
  intros Hne. induction parts as [|x rest IH]; [done|].
  destruct rest as [|y rest]; [simpl; by rewrite orb_false_r|].
  rewrite Join_cons by done. rewrite !Contains_append, IH.
  replace (Contains (String d EmptyString) c) with false; [done|].
  symmetry. by apply Contains_cons.
Qed.

End MoreStringFacts.

Lemma parse_fold_pairs (pairs : list (string * string)) (m : gmap string string) :
  Forall (λ kv : string * string, Contains (kv.1) "~" = false) pairs →
  fold_left parseLocalizedPart
    ((λ kv : string * string, segment (kv.1) (kv.2)) <$> pairs) m =
  fold_left (λ m (kv : string * string), <[kv.1 := kv.2]> m) pairs m.
Proof.
  revert m. induction pairs as [|[k v] rest IH]; intros m Hall; [done|].
  apply Forall_cons in Hall as [Hk Hrest]. simpl.
  rewrite parseLocalizedPart_cut, cutAt_segment by done. by apply IH.
Qed.

Lemma fold_insert_list_to_map (pairs : list (string * string)) :
  fold_left (λ (m : gmap string string) (kv : string * string), <[kv.1 := kv.2]> m)
    pairs ∅ = list_to_map (rev pairs).
Proof.
  induction pairs as [|[k v] rest IH] using rev_ind; [done|].
  rewrite fold_left_app, rev_app_distr. simpl. by rewrite IH.
Qed.

(** X1. Decoding what was encoded.  Pairs whose keys hold neither tilde nor
    bar and whose values hold no bar, written as key~value segments joined
    by bars, are read back by the decoder as the map of those pairs, a
    later pair winning over an earlier one with the same key. *)
Theorem parseLocalizedAttributes_encode (pairs : list (string * string)) :
  Forall (λ kv : string * string,
            Contains (kv.1) "~" = false ∧ Contains (kv.1) "|" = false ∧
            Contains (kv.2) "|" = false) pairs →
  parseLocalizedAttributes (encodeLocalized pairs) = list_to_map (rev pairs).
Proof.
  intros Hall. rewrite parseLocalizedAttributes_fold. unfold encodeLocalized.
  destruct pairs as [|kv rest]; [done|].
  change (Join ?l "|") with (Join l (String "|" EmptyString)).
  rewrite Split_Join_parts.
  - rewrite parse_fold_pairs, fold_insert_list_to_map; [done|].
    eapply Forall_impl; [exact Hall|]. by intros ? (? & _).
  - done.
  - apply Forall_fmap. eapply Forall_impl; [exact Hall|].
    intros [k v] (_ & Hk & Hv). simpl in *. unfold segment.
    rewrite !Contains_append, Hk, Hv. done.
Qed.

Lemma parse_fold_grows (parts : list string) (m : gmap string string) :
  m ≠ ∅ → fold_left parseLocalizedPart parts m ≠ ∅.
Proof.
  revert m. induction parts as [|x rest IH]; intros m Hm; [done|].
  simpl. apply IH. rewrite parseLocalizedPart_cut.
  destruct (cutAt "~" x) as [[k v]|]; [apply insert_non_empty | done].
Qed.

Lemma parse_fold_no_tilde (parts : list string) (m : gmap string string) :
  existsb (λ p, Contains p "~") parts = false →
  fold_left parseLocalizedPart parts m = m.
Proof.
  revert m. induction parts as [|x rest IH]; intros m Hno; [done|].
  simpl in Hno. apply orb_false_iff in Hno as [Hx Hrest]. simpl.
  unfold parseLocalizedPart at 2. rewrite Hx. by apply IH.
Qed.

Lemma parse_fold_tilde (parts : list string) (m : gmap string string) :
  existsb (λ p, Contains p "~") parts = true →
  fold_left parseLocalizedPart parts m ≠ ∅.
Proof.
  revert m. induction parts as [|x rest IH]; intros m Hex; [done|].
  simpl in Hex. simpl. destruct (Contains x "~") eqn:Hx.
  - apply parse_fold_grows. rewrite parseLocalizedPart_cut.
    unfold Contains in Hx. destruct (cutAt "~" x) as [[k v]|]; [|done].
    apply insert_non_empty.
  - by apply IH.
Qed.

(** X2. The decoded map is empty exactly when the text holds no tilde. *)
Theorem parseLocalizedAttributes_empty (s : string) :
  parseLocalizedAttributes s = ∅ ↔ Contains s "~" = false.
Proof.
  rewrite parseLocalizedAttributes_fold.
  rewrite <- (Split_Join "|" s) at 2.
  rewrite (Contains_Join "~" "|") by done.
  destruct (existsb _ (Split s "|")) eqn:Hex.
  - split; [|done]. intros Hempty. by apply (parse_fold_tilde _ ∅) in Hex.
  - split; [done|]. intros _. by apply parse_fold_no_tilde.
Qed.

(** ** More on the decoders *)

Section DecoderFacts.
Context `{Externals}.

(** X3. The category keys of a role are stored joined by bars.  Splitting
    the column at the bars gives the keys back exactly when the role has
    at least one key and no key holds a bar.  A role without keys gets
    the empty column, which splits into one empty key; the column is
    empty exactly for a role without keys and for a role whose only key
    is empty, so it cannot tell the two apart. *)
Theorem roleCategoryKey_roundtrip (entry : Entry) :
  let keys := GetAttributeValues entry "nrfRoleCategoryKey" in
  let column := nrfRoleCategoryKey (roleCols entry) in
  column = Join keys "|" ∧
  (Split column "|" = keys ↔ keys ≠ [] ∧ Forall (λ k, Contains k "|" = false) keys) ∧
  (keys = [] → column = EmptyString ∧ Split column "|" = [EmptyString]) ∧
  (column = EmptyString ↔ keys = [] ∨ keys = [EmptyString]).
Proof.
  intros keys column.
  assert (column = Join keys "|") as Hcol.
  { unfold column, roleCols. simpl. fold keys. by destruct keys. }
  split; [exact Hcol|]. rewrite Hcol. split; [|split].
  - split.
    + intros Heq. split.
      * intros Hnil. rewrite Hnil in Heq. simpl in Heq. discriminate.
      * rewrite <- Heq. apply Split_all.
    + intros [Hne Hall]. by apply (Split_Join_parts "|").
  - intros ->. simpl. split; reflexivity.
  - split.
    + destruct keys as [|k [|k2 rest]]; [by left | simpl; intros ->; by right |].
      rewrite Join_cons by done. intros Heq. exfalso.
      destruct k; rewrite ?append_nil_l, ?append_cons in Heq; discriminate.
    + intros [-> | ->]; reflexivity.
Qed.

(** X4. An entitlement reference with at least two hash signs.  The driver
    is the text before the first hash sign, the status the text between
    the first and the second, and the XML fragment everything after the
    second, further hash signs included.  An empty fragment, or one the XML
    decoder refuses, leaves the five derived fields empty; a decoded
    fragment gives src and id, and its param gives the three ids when it
    is a JSON object and is kept verbatim as the first id when it is not. *)
Theorem decodeEntitlementRef_three_parts (s : string) :
  (2 ≤ Count s "#")%nat →
  let r := decodeEntitlementRef s in
  s = entitlementDriver r ++ "#" ++ entitlementStatus r ++ "#" ++ entitlementXML r ∧
  Contains (entitlementDriver r) "#" = false ∧
  Contains (entitlementStatus r) "#" = false ∧
  SplitN s "#" 3 = [entitlementDriver r; entitlementStatus r; entitlementXML r] ∧
  (entitlementXML r = EmptyString ∨ xmlUnmarshalRef (entitlementXML r) = None →
     entitlementXMLSrc r = EmptyString ∧ entitlementXMLID r = EmptyString ∧
     entitlementXMLParamID r = EmptyString ∧ entitlementXMLParamID2 r = EmptyString ∧
     entitlementXMLParamID3 r = EmptyString) ∧
  (∀ ref, entitlementXML r ≠ EmptyString →
     xmlUnmarshalRef (entitlementXML r) = Some ref →
     entitlementXMLSrc r = Src ref ∧ entitlementXMLID r = ID ref ∧
     (Param ref = EmptyString →
        entitlementXMLParamID r = EmptyString ∧ entitlementXMLParamID2 r = EmptyString ∧
        entitlementXMLParamID3 r = EmptyString) ∧
     (∀ p, Param ref ≠ EmptyString → jsonUnmarshalParam (Param ref) = Some p →
        entitlementXMLParamID r = param_ID p ∧ entitlementXMLParamID2 r = param_ID2 p ∧
        entitlementXMLParamID3 r = param_ID3 p) ∧
     (Param ref ≠ EmptyString → jsonUnmarshalParam (Param ref) = None →
        entitlementXMLParamID r = Param ref ∧ entitlementXMLParamID2 r = EmptyString ∧
        entitlementXMLParamID3 r = EmptyString)).
Proof.
  intros Hcount r.
  destruct (cutAt "#" s) as [[d rest]|] eqn:Hcut1; cycle 1.
  { apply Contains_cutAt, Count_0_Contains in Hcut1. lia. }
  pose proof (cutAt_Count _ _ _ _ Hcut1) as Hc1.
  destruct (cutAt "#" rest) as [[st x]|] eqn:Hcut2; cycle 1.
  { apply Contains_cutAt, Count_0_Contains in Hcut2. lia. }
  assert (SplitN s "#" 3 = [d; st; x]) as Hparts.
  { unfold SplitN. simpl (_ =? _). cbv iota. replace (3 <? 0) with false by done.
    pose proof (Count_le_length "#" s).
    destruct (Z.ltb_spec (Z.of_nat (String.length s) + 1) 3); [lia|].
    change (Z.to_nat (3 - 1)) with 2%nat. cbn [genSplit_loop].
    by rewrite Hcut1, Hcut2. }
  apply cutAt_Some in Hcut1 as [Hs Hd]. apply cutAt_Some in Hcut2 as [Hrest Hst].
  assert (entitlementDriver r = d ∧ entitlementStatus r = st ∧ entitlementXML r = x)
    as (Hrd & Hrs & Hrx).
  { unfold r, decodeEntitlementRef. rewrite Hparts. unfold elemAt. simpl.
    destruct (String.eqb x EmptyString); [done|].
    destruct (xmlUnmarshalRef x) as [ref|]; [|done].
    by destruct (decodeEntitlementParam (Param ref)) as [[? ?] ?]. }
  rewrite Hrd, Hrs, Hrx.
  split; [by rewrite Hs, Hrest|]. split; [done|]. split; [done|]. split; [done|].
  unfold r, decodeEntitlementRef. rewrite Hparts. unfold elemAt. simpl. split.
  - intros [-> | Hx]; [done|]. destruct (String.eqb x EmptyString); [done|].
    by rewrite Hx.
  - intros ref Hne Href. destruct (String.eqb_spec x EmptyString); [done|].
    rewrite Href. unfold decodeEntitlementParam.
    destruct (String.eqb_spec (Param ref) EmptyString) as [Hp|Hp]; simpl.
    + split; [done|]. split; [done|].
      split; [done|]. split; [intros p Hp'; done | intros Hp'; done].
    + destruct (jsonUnmarshalParam (Param ref)) as [p|]; simpl.
      * split; [done|]. split; [done|].
        split; [done|]. split; [by intros p' _ [= <-] | done].
      * split; [done|]. split; [done|].
        split; [done|]. split; [done | done].
Qed.

(** X5. The derived JSON column is empty or valid.  Whatever the raw
    attribute is, the text stored in nrfdynamicparmvals_value_json is
    either empty or a text that the JSON decoder accepts. *)
Theorem decodeDynamicParmVals_valid (raw : string) :
  decodeDynamicParmVals raw = EmptyString ∨
  ∃ j, jsonUnmarshal (decodeDynamicParmVals raw) = Some j.
Proof.
  unfold decodeDynamicParmVals.
  destruct (String.eqb raw EmptyString); [by left|].
  destruct (xmlUnmarshalParm raw) as [x|]; [|by left].
  destruct (jsonUnmarshal (unescapeEntities (Value x))) as [j|] eqn:Hj; [|by left].
  destruct (jsonMarshal j) as [out|] eqn:Hout; [|by left].
  right. exists j. by apply (jsonMarshal_roundtrip _ _ _ Hj).
Qed.

End DecoderFacts.

(** ** The output of the entity decoding *)

Lemma unescape_pass_prefix (p s : string) :
  Contains p (ascii_of_nat 34) = false → Contains p "<" = false →
  Contains p ">" = false →
  String.prefix p (unescape_pass 0 s) = true → String.prefix p s = true.
Proof.
  revert s. induction p as [|b p IH]; intros s Hq Hl Hg; [by destruct s|].
  apply Contains_cons in Hq as [Hbq Hq]. apply Contains_cons in Hl as [Hbl Hl].
  apply Contains_cons in Hg as [Hbg Hg].
  destruct s as [|a s]; [done|]. cbn [unescape_pass].
  destruct (String.prefix "&quot;" (String a s)).
  { unfold quote. rewrite append_cons. by rewrite prefix_cons_ne. }
  destruct (String.prefix "&lt;" (String a s)).
  { rewrite append_cons. by rewrite prefix_cons_ne. }
  destruct (String.prefix "&gt;" (String a s)).
  { rewrite append_cons. by rewrite prefix_cons_ne. }
  simpl. destruct (ascii_dec b a); [by apply IH | done].
Qed.

Lemma entityFree_other (a : ascii) (s : string) :
  a ≠ "&"%char → entityFree (String a s) = entityFree s.
Proof. intros Hne. cbn [entityFree]. by rewrite !prefix_cons_ne. Qed.

Lemma unescape_pass_entityFree (s : string) : entityFree (unescape_pass 0 s) = true.
Proof.
  remember (String.length s) as n eqn:Hn. revert s Hn.
  induction n as [n IH] using lt_wf_ind. intros s ->.
  destruct s as [|a s]; [done|]. cbn [unescape_pass].
  destruct (String.prefix "&quot;" (String a s)) eqn:Hq.
  { apply prefix_append in Hq as [r Hr].
    change ("&quot;" ++ r) with (String "&" ("quot;" ++ r)) in Hr.
    injection Hr as -> ->. unfold quote. rewrite append_cons, append_nil_l.
    rewrite entityFree_other by done.
    change 5%nat with (String.length "quot;"). rewrite unescape_pass_skip.
    eapply IH; [|done]. simpl. rewrite length_append. simpl. lia. }
  destruct (String.prefix "&lt;" (String a s)) eqn:Hl.
  { apply prefix_append in Hl as [r Hr].
    change ("&lt;" ++ r) with (String "&" ("lt;" ++ r)) in Hr.
    injection Hr as -> ->. rewrite append_cons, append_nil_l.
    rewrite entityFree_other by done.
    change 3%nat with (String.length "lt;"). rewrite unescape_pass_skip.
    eapply IH; [|done]. simpl. rewrite length_append. simpl. lia. }
  destruct (String.prefix "&gt;" (String a s)) eqn:Hg.
  { apply prefix_append in Hg as [r Hr].
    change ("&gt;" ++ r) with (String "&" ("gt;" ++ r)) in Hr.
    injection Hr as -> ->. rewrite append_cons, append_nil_l.
    rewrite entityFree_other by done.
    change 3%nat with (String.length "gt;"). rewrite unescape_pass_skip.
    eapply IH; [|done]. simpl. rewrite length_append. simpl. lia. }
  assert (entityFree (unescape_pass 0 s) = true) as Hrec
    by (eapply IH; [|done]; simpl; lia).
  destruct (ascii_dec a "&") as [->|Hne]; [|by rewrite entityFree_other].
  cbn [entityFree]. rewrite Hrec, andb_true_r.
  rewrite !prefix_false_cons; [done|..]; intros Hp;
    apply unescape_pass_prefix in Hp; try done.
  - by apply (prefix_cons_inv _ _ _ _ Hg).
  - by apply (prefix_cons_inv _ _ _ _ Hl).
  - by apply (prefix_cons_inv _ _ _ _ Hq).
Qed.

Lemma entityFree_fixed (s : string) : entityFree s = true → unescape_pass 0 s = s.
Proof.
  induction s as [|a s IH]; [done|]. cbn [entityFree unescape_pass].
  intros [[[Hq Hl]%andb_true_iff Hg]%andb_true_iff Hs]%andb_true_iff.
  apply negb_true_iff in Hq, Hl, Hg. rewrite Hq, Hl, Hg. f_equal. by apply IH.
Qed.

Lemma no_ampersand_entityFree (s : string) :
  Contains s "&" = false → entityFree s = true.
Proof.
  induction s as [|a s IH]; [done|]. intros [Hne Hs]%Contains_cons.
  rewrite entityFree_other by done. by apply IH.
Qed.

Lemma unescape_pass_length (k : nat) (s : string) :
  (String.length (unescape_pass k s) ≤ String.length s)%nat.
Proof.
  revert k. induction s as [|a s IH]; intros k; [done|]. cbn [unescape_pass].
  destruct k as [|k]; [|specialize (IH k); simpl; lia].
  destruct (String.prefix "&quot;" (String a s));
    [unfold quote; rewrite append_cons, append_nil_l; specialize (IH 5%nat); simpl; lia|].
  destruct (String.prefix "&lt;" (String a s));
    [rewrite append_cons, append_nil_l; specialize (IH 3%nat); simpl; lia|].
  destruct (String.prefix "&gt;" (String a s));
    [rewrite append_cons, append_nil_l; specialize (IH 3%nat); simpl; lia|].
  specialize (IH 0%nat). simpl. lia.
Qed.

(** X6. What the three replacements give.  The result begins none of the
    three entities at any position, so replacing again changes nothing;
    it is never longer than the value; and a value without an ampersand
    is returned as it is. *)
Theorem unescapeEntities_output (value : string) :
  entityFree (unescapeEntities value) = true ∧
  unescapeEntities (unescapeEntities value) = unescapeEntities value ∧
  (String.length (unescapeEntities value) ≤ String.length value)%nat ∧
  (Contains value "&" = false → unescapeEntities value = value).
Proof.
  rewrite !unescapeEntities_one_pass. unfold unescape_spec.
  pose proof (unescape_pass_entityFree value) as Hfree.
  split; [done|]. split; [by apply entityFree_fixed|].
  split; [apply unescape_pass_length|].
  intros Hno. by apply entityFree_fixed, no_ampersand_entityFree.
Qed.

(** ** More on the lifecycle pass *)

Section PassFacts.
Context {A : Type}.
Implicit Types (t : gmap string (Row A)) (r : Row A).

Lemma markRow_idemp ts r : markRow ts (markRow ts r) = markRow ts r.
Proof.
  unfold markRow at 2 3. destruct (bool_decide (updated_at r < ts)) eqn:Hu.
  - unfold markRow. simpl. by rewrite Hu.
  - unfold markRow. by rewrite Hu.
Qed.

Lemma purgedByPass_markRow ts bound r :
  purgedByPass ts bound (markRow ts r) = purgedByPass ts bound r.
Proof.
  destruct bound as [b|]; [|done].
  unfold purgedByPass. destruct (markRow_frame ts r) as (_ & _ & -> & ->).
  by rewrite <- orb_assoc, orb_diag.
Qed.

(** A second pass with the same watermark and bound finds nothing to do
    on a table. *)
Lemma pass_pass ts bound t :
  passTable ts bound (passTable ts bound t) = passTable ts bound t.
Proof.
  apply map_eq. intros dn. rewrite !pass_lookup.
  destruct (t !! dn) as [r|]; simpl; [|done].
  destruct (purgedByPass ts bound r) eqn:Hp; simpl; [done|].
  by rewrite purgedByPass_markRow, Hp, markRow_idemp.
Qed.

Lemma purgedKeys_after_pass ts b t :
  purgedKeys b (markStale ts (passTable ts (Some b) t)) = ∅.
Proof.
  apply set_eq. intros dn. rewrite elem_of_purgedKeys. split; [|by intros ?%not_elem_of_empty].
  intros (r & Hr & Hp). rewrite markStale_lookup, pass_lookup in Hr.
  destruct (t !! dn) as [r0|]; simpl in Hr; [|done].
  destruct (purgedByPass ts (Some b) r0) eqn:Hp0; simpl in Hr; [done|].
  injection Hr as <-. rewrite purgeable_markRow, purgedByPass_markRow in Hp. congruence.
Qed.

(** A live row stamped at the watermark or later is left as it is. *)
Lemma pass_keeps_current ts bound t dn r :
  t !! dn = Some r → is_deleted r = false → ts ≤ updated_at r →
  passTable ts bound t !! dn = Some r.
Proof.
  intros Hr Hd Hu. rewrite pass_lookup, Hr. simpl.
  rewrite purgedByPass_current by done.
  unfold markRow. by rewrite (bool_decide_false (updated_at r < ts)) by lia.
Qed.

(** With an accepted bound that is not earlier than the watermark, a stale
    row does not survive the pass. *)
Lemma pass_no_retention ts b t dn r :
  ts ≤ b → t !! dn = Some r → updated_at r < ts →
  passTable ts (Some b) t !! dn = None.
Proof.
  intros Hb Hr Hu. rewrite pass_lookup, Hr. simpl.
  rewrite purgedByPass_stale by done. by rewrite bool_decide_true by lia.
Qed.

(** What remains after the pass was there before, marked. *)
Lemma pass_remaining ts bound t dn r' :
  passTable ts bound t !! dn = Some r' →
  ∃ r, t !! dn = Some r ∧ r' = markRow ts r ∧ purgedByPass ts bound r = false.
Proof.
  rewrite pass_lookup. destruct (t !! dn) as [r|]; simpl; [|done].
  destruct (purgedByPass ts bound r) eqn:Hp; [done|]. intros [= <-]. by exists r.
Qed.

End PassFacts.

Lemma DB_eq (db1 db2 : DB) :
  viz_roles db1 = viz_roles db2 → viz_roles_parents db1 = viz_roles_parents db2 →
  viz_resources db1 = viz_resources db2 →
  viz_roles_resources db1 = viz_roles_resources db2 → db1 = db2.
Proof. destruct db1, db2. simpl. by intros -> -> -> ->. Qed.

Lemma cascade_empty (parents : gset (string * string)) : cascade ∅ parents = parents.
Proof.
  apply set_eq. intros [c p]. rewrite elem_of_cascade. set_solver.
Qed.

Section MorePassTheorems.
Context `{Externals}.

(** X7. The lifecycle pass is idempotent: a second pass with the same
    watermark and retention changes nothing, in any table. *)
Theorem markAndPurge_idempotent (db : DB) (ts days : Z) :
  markAndPurge (markAndPurge db ts days) ts days = markAndPurge db ts days.
Proof.
  destruct (markAndPurge_tables (markAndPurge db ts days) ts days)
    as (Hroles & Hres & Hassoc & Hpairs).
  destruct (markAndPurge_tables db ts days) as (Hroles0 & Hres0 & Hassoc0 & Hpairs0).
  rewrite Hroles0 in Hroles, Hpairs. rewrite Hres0 in Hres. rewrite Hassoc0 in Hassoc.
  rewrite Hpairs0 in Hpairs. rewrite pass_pass in Hroles.
  rewrite pass_pass in Hres. rewrite pass_pass in Hassoc.
  apply DB_eq; [congruence | | congruence | congruence].
  rewrite Hpairs, Hpairs0. destruct (purgeTimestamp ts days) as [b|]; [|done].
  by rewrite purgedKeys_after_pass, cascade_empty.
Qed.

(** X8. The lifecycle pass never touches what is current.  Whatever the
    retention (also zero or negative), a live row whose updated_at is the
    watermark or later is kept with all its columns, in each entity table,
    and a RoleParent pair between two such roles is kept. *)
Theorem markAndPurge_keeps_current (db : DB) (ts days : Z) :
  (∀ dn r, viz_roles db !! dn = Some r → is_deleted r = false → ts ≤ updated_at r →
     viz_roles (markAndPurge db ts days) !! dn = Some r) ∧
  (∀ dn r, viz_resources db !! dn = Some r → is_deleted r = false → ts ≤ updated_at r →
     viz_resources (markAndPurge db ts days) !! dn = Some r) ∧
  (∀ dn r, viz_roles_resources db !! dn = Some r → is_deleted r = false →
     ts ≤ updated_at r →
     viz_roles_resources (markAndPurge db ts days) !! dn = Some r) ∧
  (∀ c p rc rp, (c, p) ∈ viz_roles_parents db →
     viz_roles db !! c = Some rc → is_deleted rc = false → ts ≤ updated_at rc →
     viz_roles db !! p = Some rp → is_deleted rp = false → ts ≤ updated_at rp →
     (c, p) ∈ viz_roles_parents (markAndPurge db ts days)).
Proof.
  destruct (markAndPurge_tables db ts days) as (Hroles & Hres & Hassoc & _).
  split; [rewrite Hroles; intros dn r; apply pass_keeps_current|].
  split; [rewrite Hres; intros dn r; apply pass_keeps_current|].
  split; [rewrite Hassoc; intros dn r; apply pass_keeps_current|].
  intros c p rc rp Hin Hc Hdc Huc Hp Hdp Hup.
  apply markAndPurge_parents. split; [done|].
  split; intros r Hr; simplify_eq; by apply purgedByPass_current.
Qed.

(** X9. The pass only removes and marks.  A row that is in a table after
    the pass was there before with the same attribute columns, created_at
    and updated_at, and is deleted if it was; a RoleParent pair after the
    pass was there before, and both its roles are still rows of
    viz_roles. *)
Theorem markAndPurge_only_removes (db : DB) (ts days : Z) :
  let db' := markAndPurge db ts days in
  (∀ dn r', viz_roles db' !! dn = Some r' →
     ∃ r, viz_roles db !! dn = Some r ∧ withoutUpdatedAt r' =
          (cols r, created_at r, is_deleted r || bool_decide (updated_at r < ts)) ∧
          updated_at r' = updated_at r) ∧
  (∀ dn r', viz_resources db' !! dn = Some r' →
     ∃ r, viz_resources db !! dn = Some r ∧ withoutUpdatedAt r' =
          (cols r, created_at r, is_deleted r || bool_decide (updated_at r < ts)) ∧
          updated_at r' = updated_at r) ∧
  (∀ dn r', viz_roles_resources db' !! dn = Some r' →
     ∃ r, viz_roles_resources db !! dn = Some r ∧ withoutUpdatedAt r' =
          (cols r, created_at r, is_deleted r || bool_decide (updated_at r < ts)) ∧
          updated_at r' = updated_at r) ∧
  viz_roles_parents db' ⊆ viz_roles_parents db ∧
  (fk_ok db → fk_ok db').
Proof.
  intros db'.
  assert (∀ A bound (t : gmap string (Row A)) dn r',
    passTable ts bound t !! dn = Some r' →
    ∃ r, t !! dn = Some r ∧ withoutUpdatedAt r' =
         (cols r, created_at r, is_deleted r || bool_decide (updated_at r < ts)) ∧
         updated_at r' = updated_at r) as Hrow.
  { intros A bound t dn r' (r & Hr & -> & _)%pass_remaining. exists r. split; [done|].
    unfold withoutUpdatedAt. by destruct (markRow_frame ts r) as (-> & -> & -> & ->). }
  destruct (markAndPurge_tables db ts days) as (Hroles & Hres & Hassoc & _).
  unfold db'.
  split; [rewrite Hroles; intros dn r'; apply Hrow|].
  split; [rewrite Hres; intros dn r'; apply Hrow|].
  split; [rewrite Hassoc; intros dn r'; apply Hrow|]. split.
  - intros [c p] Hin. by apply markAndPurge_parents in Hin as [? _].
  - apply markAndPurge_fk_ok.
Qed.

(** X10. No retention.  When the store accepts the purge bound of a pass
    and that bound is the watermark or a later instant, every stale row
    (updated_at earlier than the watermark) is removed by the pass that
    would mark it, in each entity table, and no soft-deleted stale role
    is left. *)
Theorem markAndPurge_no_retention (db : DB) (ts days bound : Z) :
  purgeTimestamp ts days = Some bound → ts ≤ bound →
  (∀ dn r, viz_roles db !! dn = Some r → updated_at r < ts →
     viz_roles (markAndPurge db ts days) !! dn = None) ∧
  (∀ dn r, viz_resources db !! dn = Some r → updated_at r < ts →
     viz_resources (markAndPurge db ts days) !! dn = None) ∧
  (∀ dn r, viz_roles_resources db !! dn = Some r → updated_at r < ts →
     viz_roles_resources (markAndPurge db ts days) !! dn = None) ∧
  (∀ dn r', viz_roles (markAndPurge db ts days) !! dn = Some r' → ts ≤ updated_at r').
Proof.
  intros Hb Hle.
  destruct (markAndPurge_tables db ts days) as (Hroles & Hres & Hassoc & _).
  rewrite Hb in Hroles, Hres, Hassoc.
  split; [rewrite Hroles; intros dn r; by apply pass_no_retention|].
  split; [rewrite Hres; intros dn r; by apply pass_no_retention|].
  split; [rewrite Hassoc; intros dn r; by apply pass_no_retention|].
  rewrite Hroles. intros dn r' Hr'.
  destruct (Z.le_gt_cases ts (updated_at r')) as [|Hlt]; [done|].
  pose proof Hr' as Hr''.
  apply pass_remaining in Hr' as (r & Hr & -> & _).
  destruct (markRow_frame ts r) as (_ & _ & Hu & _). rewrite Hu in Hlt.
  pose proof (pass_no_retention ts bound (viz_roles db) dn r Hle Hr Hlt) as Hnone.
  congruence.
Qed.

End MorePassTheorems.

(** ** More on the synchronizers *)

Lemma elem_of_parentPairs (entries : list Entry) (c p : string) :
  (c, p) ∈ parentPairs entries ↔
  ∃ e, e ∈ entries ∧ DN e = c ∧ p ∈ GetAttributeValues e "nrfParentRoles".
Proof.
  unfold parentPairs. rewrite elem_of_list_to_set, list_elem_of_bind. split.
  - intros (e & (p' & [= -> ->] & Hp)%list_elem_of_fmap & He). by exists e.
  - intros (e & He & <- & Hp). exists e. split; [|done].
    apply list_elem_of_fmap. by exists p.
Qed.

Lemma lastWith_last (dn : string) (before after : list Entry) (e : Entry) :
  DN e = dn → dn ∉ observed after →
  lastWith dn (before ++ e :: after)%list = Some e.
Proof.
  intros He Hafter. apply lastWith_None in Hafter.
  induction before as [|x before IH]; simpl.
  - rewrite Hafter. by apply String.eqb_eq in He as ->.
  - by rewrite IH.
Qed.

Lemma lastWith_unique (dn : string) (entries : list Entry) (e : Entry) :
  NoDup (DN <$> entries) → e ∈ entries → DN e = dn → lastWith dn entries = Some e.
Proof.
  intros Hnd He Hdn. apply list_elem_of_split in He as (before & after & ->).
  apply lastWith_last; [done|].
  rewrite fmap_app, fmap_cons in Hnd. apply NoDup_app in Hnd as (_ & _ & Hnd).
  apply NoDup_cons in Hnd as [Hnot _]. unfold observed.
  rewrite elem_of_list_to_set. by rewrite <- Hdn.
Qed.

Lemma lastWith_Permutation (dn : string) (l1 l2 : list Entry) :
  l1 ≡ₚ l2 → NoDup (DN <$> l1) → lastWith dn l1 = lastWith dn l2.
Proof.
  intros Hperm Hnd.
  assert (NoDup (DN <$> l2)) as Hnd2 by (by rewrite <- Hperm).
  destruct (lastWith dn l1) as [e|] eqn:H1.
  - apply lastWith_Some in H1 as [He Hdn]. symmetry.
    apply lastWith_unique; [done| by rewrite <- Hperm |done].
  - symmetry. apply lastWith_None. apply lastWith_None in H1.
    unfold observed in *. by rewrite <- Hperm.
Qed.

Lemma forallb_Permutation {A} (f : A → bool) (l1 l2 : list A) :
  l1 ≡ₚ l2 → forallb f l1 = forallb f l2.
Proof.
  induction 1 as [|x l l' _ IH|x y l|l l' l'' _ IH1 _ IH2]; simpl.
  - done.
  - by rewrite IH.
  - by rewrite !andb_assoc, (andb_comm (f y)).
  - congruence.
Qed.

Lemma observed_Permutation (l1 l2 : list Entry) :
  l1 ≡ₚ l2 → observed l1 = observed l2.
Proof.
  intros Hperm. apply set_eq. intros dn. unfold observed.
  rewrite !elem_of_list_to_set. by rewrite Hperm.
Qed.

Lemma parentPairs_Permutation (l1 l2 : list Entry) :
  l1 ≡ₚ l2 → parentPairs l1 = parentPairs l2.
Proof.
  intros Hperm. apply set_eq. intros [c p]. rewrite !elem_of_parentPairs.
  by setoid_rewrite Hperm.
Qed.

Lemma upsertAll_Permutation {A} (colsOf : Entry → A) ts (l1 l2 : list Entry)
    (t : gmap string (Row A)) :
  l1 ≡ₚ l2 → NoDup (DN <$> l1) → upsertAll colsOf ts l1 t = upsertAll colsOf ts l2 t.
Proof.
  intros Hperm Hnd. apply map_eq. intros dn.
  by rewrite !upsertAll_lookup, (lastWith_Permutation dn l1 l2).
Qed.

Section MoreSyncFacts.
Context `{Externals}.

(** X11. The junction table is replaced, not merged.  After a role
    synchronizer that commits, viz_roles_parents holds exactly the pairs
    (role, parent) that the result set names, whatever it held before;
    both ends of every pair are rows of viz_roles. *)
Theorem syncRoles_replaces_parents (entries : list Entry) (ts : Z) (db : DB) :
  ¬ rolesFail entries db →
  let db' := syncRoles (Some entries) ts db in
  (∀ c p, (c, p) ∈ viz_roles_parents db' ↔
          ∃ e, e ∈ entries ∧ DN e = c ∧ p ∈ GetAttributeValues e "nrfParentRoles") ∧
  (∀ c p, (c, p) ∈ viz_roles_parents db' →
          c ∈ dom (viz_roles db') ∧ p ∈ dom (viz_roles db')).
Proof.
  intros Hok db'. pose proof (rolesAccepted_true _ _ Hok) as Hacc.
  unfold db'. rewrite syncRoles_closed, Hacc. simpl.
  split; [intros c p; apply elem_of_parentPairs|].
  intros c p (e & He & <- & Hp)%elem_of_parentPairs. rewrite upsertAll_dom.
  split; [apply elem_of_union_r; by apply elem_of_observed|].
  destruct (decide (p ∈ dom (viz_roles db) ∪ observed entries)) as [|Hn]; [done|].
  destruct Hok. exists e. split; [done|]. right. exists p. split; [done|]. by right.
Qed.

(** X12. A synchronizer never removes a row and never changes the row of
    a key that is not in its result set, whether it commits or rolls back
    and whether the search succeeded or not. *)
Theorem synchronizers_keep_unobserved (found : option (list Entry)) (ts : Z) (db : DB) :
  let entries := default [] found in
  (dom (viz_roles db) ⊆ dom (viz_roles (syncRoles found ts db)) ∧
   ∀ dn, dn ∉ observed entries →
         viz_roles (syncRoles found ts db) !! dn = viz_roles db !! dn) ∧
  (dom (viz_resources db) ⊆ dom (viz_resources (syncResources found ts db)) ∧
   ∀ dn, dn ∉ observed entries →
         viz_resources (syncResources found ts db) !! dn = viz_resources db !! dn) ∧
  (dom (viz_roles_resources db) ⊆
     dom (viz_roles_resources (syncAssociations found ts db)) ∧
   ∀ dn, dn ∉ observed entries →
         viz_roles_resources (syncAssociations found ts db) !! dn =
         viz_roles_resources db !! dn).
Proof.
  intros entries. destruct found as [es|]; [|done]. subst entries.
  change (default [] (Some es)) with es.
  split; [|split].
  - rewrite syncRoles_closed. destruct (_ && _); [|done]. simpl.
    split; [rewrite upsertAll_dom; set_solver|].
    intros dn Hdn%lastWith_None. by rewrite upsertAll_lookup, Hdn.
  - rewrite syncResources_closed. destruct (upsertsAccepted _ _); [|done]. simpl.
    split; [rewrite upsertAll_dom; set_solver|].
    intros dn Hdn%lastWith_None. by rewrite upsertAll_lookup, Hdn.
  - rewrite syncAssociations_closed. destruct (upsertsAccepted _ _); [|done]. simpl.
    split; [rewrite upsertAll_dom; set_solver|].
    intros dn Hdn%lastWith_None. by rewrite upsertAll_lookup, Hdn.
Qed.

(** X13. When the result set holds a key more than once, the last entry
    wins.  After a synchronizer that commits, the row of an entry that no
    later entry of the result set shares its key with holds the attribute
    columns of that entry, is live and carries the watermark. *)
Theorem synchronizers_last_entry_wins (before after : list Entry) (e : Entry)
    (ts : Z) (db : DB) :
  DN e ∉ observed after →
  let entries := (before ++ e :: after)%list in
  (¬ rolesFail entries db →
     ∃ created, viz_roles (syncRoles (Some entries) ts db) !! DN e =
                Some (mkRow (roleCols e) created ts false)) ∧
  (¬ rowsFail resourceAccepted entries →
     ∃ created, viz_resources (syncResources (Some entries) ts db) !! DN e =
                Some (mkRow (resourceCols e) created ts false)) ∧
  (¬ rowsFail assocAccepted entries →
     ∃ created, viz_roles_resources (syncAssociations (Some entries) ts db) !! DN e =
                Some (mkRow (assocCols e) created ts false)).
Proof.
  intros Hafter entries.
  pose proof (lastWith_last (DN e) before after e eq_refl Hafter) as Hlast.
  split; [|split].
  - intros Hok%rolesAccepted_true. rewrite syncRoles_closed, Hok. simpl.
    rewrite upsertAll_lookup. unfold entries. rewrite Hlast. by eexists.
  - intros Hok%upsertsAccepted_true. rewrite syncResources_closed, Hok. simpl.
    rewrite upsertAll_lookup. unfold entries. rewrite Hlast. by eexists.
  - intros Hok%upsertsAccepted_true. rewrite syncAssociations_closed, Hok. simpl.
    rewrite upsertAll_lookup. unfold entries. rewrite Hlast. by eexists.
Qed.

(** X14. The three synchronizers commute: the store after two of them does
    not depend on which ran first. *)
Theorem synchronizers_commute (fr fs fa : option (list Entry)) (ts : Z) (db : DB) :
  syncResources fs ts (syncRoles fr ts db) = syncRoles fr ts (syncResources fs ts db) ∧
  syncAssociations fa ts (syncRoles fr ts db) =
    syncRoles fr ts (syncAssociations fa ts db) ∧
  syncAssociations fa ts (syncResources fs ts db) =
    syncResources fs ts (syncAssociations fa ts db).
Proof.
  split; [|split].
  - destruct fr as [er|], fs as [es|]; try done.
    rewrite !syncRoles_closed, !syncResources_closed.
    destruct (upsertsAccepted resourceAccepted es); [|done]. simpl.
    by destruct (_ && _).
  - destruct fr as [er|], fa as [ea|]; try done.
    rewrite !syncRoles_closed, !syncAssociations_closed.
    destruct (upsertsAccepted assocAccepted ea); [|done]. simpl.
    by destruct (_ && _).
  - destruct fs as [es|], fa as [ea|]; try done.
    rewrite !syncResources_closed, !syncAssociations_closed.
    destruct (upsertsAccepted assocAccepted ea); [|done]. simpl.
    by destruct (upsertsAccepted resourceAccepted es).
Qed.

(** X15. The order in which the directory returns its entries does not
    matter.  For a result set whose keys are pairwise different, every
    reordering leads each synchronizer to the same store. *)
Theorem synchronizers_order_independent (entries entries' : list Entry) (ts : Z) (db : DB) :
  entries ≡ₚ entries' → NoDup (DN <$> entries) →
  syncRoles (Some entries) ts db = syncRoles (Some entries') ts db ∧
  syncResources (Some entries) ts db = syncResources (Some entries') ts db ∧
  syncAssociations (Some entries) ts db = syncAssociations (Some entries') ts db.
Proof.
  intros Hperm Hnd. split; [|split].
  - rewrite !syncRoles_closed. unfold upsertsAccepted, parentsAccepted.
    rewrite <- (observed_Permutation _ _ Hperm), <- (parentPairs_Permutation _ _ Hperm).
    rewrite <- (forallb_Permutation roleAccepted _ _ Hperm).
    rewrite <- (forallb_Permutation _ _ _ Hperm).
    by rewrite (upsertAll_Permutation roleCols ts _ _ _ Hperm Hnd).
  - rewrite !syncResources_closed. unfold upsertsAccepted.
    rewrite <- (forallb_Permutation resourceAccepted _ _ Hperm).
    by rewrite (upsertAll_Permutation resourceCols ts _ _ _ Hperm Hnd).
  - rewrite !syncAssociations_closed. unfold upsertsAccepted.
    rewrite <- (forallb_Permutation assocAccepted _ _ Hperm).
    by rewrite (upsertAll_Permutation assocCols ts _ _ _ Hperm Hnd).
Qed.

End MoreSyncFacts.

(** ** Whole runs *)

Section TableRuns.
Context {A : Type}.
Variable colsOf : Entry → A.
Implicit Types (t : gmap string (Row A)).

Lemma upsertAll_stamped ts ts' entries t :
  ts ≤ ts' → tableStamped ts t → tableStamped ts' (upsertAll colsOf ts' entries t).
Proof.
  intros Hle Ht dn r. rewrite upsertAll_lookup.
  destruct (lastWith dn entries) as [e|].
  - intros [= <-]. unfold rowStamped. simpl. split; [|lia].
    destruct (t !! dn) as [r0|] eqn:Hr0; simpl; [|lia].
    destruct (Ht _ _ Hr0). lia.
  - intros Hr. destruct (Ht _ _ Hr). unfold rowStamped. lia.
Qed.

Lemma pass_stamped ts bound t :
  tableStamped ts t → tableStamped ts (passTable ts bound t).
Proof.
  intros Ht dn r' (r & Hr & -> & _)%pass_remaining. unfold rowStamped.
  destruct (markRow_frame ts r) as (_ & -> & -> & _). by apply (Ht dn).
Qed.

Lemma tableStamped_mono ts ts' t : ts ≤ ts' → tableStamped ts t → tableStamped ts' t.
Proof. intros Hle Ht dn r Hr. destruct (Ht _ _ Hr). unfold rowStamped. lia. Qed.

(** After a committed loop of upserts and the pass of the same run, the
    live rows are the observed ones. *)
Lemma committed_table_live ts bound entries t dn :
  (∀ k r, t !! k = Some r → updated_at r < ts) →
  (∃ r, passTable ts bound (upsertAll colsOf ts entries t) !! dn = Some r
        ∧ is_deleted r = false) ↔ dn ∈ observed entries.
Proof.
  intros Hold. rewrite pass_lookup, upsertAll_lookup.
  destruct (lastWith dn entries) as [e|] eqn:Hl.
  - apply lastWith_Some in Hl as [He <-]. apply elem_of_observed in He.
    simpl. rewrite purgedByPass_current by (simpl; first [done | lia]).
    unfold markRow. simpl. rewrite (bool_decide_false (ts < ts)) by lia.
    split; [done|]. intros _. by eexists.
  - apply lastWith_None in Hl. split; [|done].
    intros (r & Hr & Hd). destruct (t !! dn) as [r0|] eqn:Hr0; simpl in Hr; [|done].
    destruct (purgedByPass ts bound r0); [done|]. injection Hr as <-.
    destruct (markRow_frame ts r0) as (_ & _ & _ & Hdel). rewrite Hdel in Hd.
    rewrite (bool_decide_true (updated_at r0 < ts)) in Hd by eauto.
    by rewrite orb_true_r in Hd.
Qed.

End TableRuns.

Section MoreRunFacts.
Context `{Externals}.

Lemma run_parents dir ts days db :
  viz_roles_parents (run dir ts days db) =
  viz_roles_parents (markAndPurge (syncRoles (foundRoles dir) ts db) ts days).
Proof.
  unfold run.
  destruct (markAndPurge_tables
    (syncAssociations (foundAssociations dir) ts
       (syncResources (foundResources dir) ts (syncRoles (foundRoles dir) ts db)))
    ts days) as (_ & _ & _ & ->).
  destruct (markAndPurge_tables (syncRoles (foundRoles dir) ts db) ts days)
    as (_ & _ & _ & ->).
  destruct (syncAssociations_frame (foundAssociations dir) ts
              (syncResources (foundResources dir) ts
                 (syncRoles (foundRoles dir) ts db))) as (-> & -> & _).
  by destruct (syncResources_frame (foundResources dir) ts
                 (syncRoles (foundRoles dir) ts db)) as (-> & -> & _).
Qed.

(** X16. A role synchronizer that does not commit does not stop the
    lifecycle pass.  When the role search fails or the role transaction is
    rolled back, the run treats viz_roles and viz_roles_parents as a bare
    lifecycle pass would: every role row older than the watermark that
    remains is marked deleted, although no role was read or written. *)
Theorem run_without_role_commit (dir : Directory) (ts days : Z) (db : DB) :
  (foundRoles dir = None ∨
   ∃ entries, foundRoles dir = Some entries ∧ rolesFail entries db) →
  let db' := run dir ts days db in
  viz_roles db' = viz_roles (markAndPurge db ts days) ∧
  viz_roles_parents db' = viz_roles_parents (markAndPurge db ts days) ∧
  (∀ dn r', viz_roles db' !! dn = Some r' →
     ∃ r, viz_roles db !! dn = Some r ∧ cols r' = cols r ∧
          (updated_at r < ts → is_deleted r' = true)).
Proof.
  intros Hfail db'.
  assert (syncRoles (foundRoles dir) ts db = db) as Hsame.
  { destruct Hfail as [-> | (entries & -> & Hf%rolesAccepted_false)]; [done|].
    by rewrite syncRoles_closed, Hf. }
  assert (viz_roles db' = viz_roles (markAndPurge db ts days)) as Hroles.
  { unfold db'. rewrite run_roles, Hsame.
    by destruct (markAndPurge_tables db ts days) as (-> & _). }
  split; [done|]. split.
  { unfold db'. by rewrite run_parents, Hsame. }
  intros dn r'. unfold db'. rewrite run_roles, Hsame.
  intros (r & Hr & -> & _)%pass_remaining.
  exists r. split; [done|].
  destruct (markRow_frame ts r) as (-> & _ & _ & ->). split; [done|].
  intros Hu. rewrite (bool_decide_true _ Hu). apply orb_true_r.
Qed.

(** X17. After a run, the live rows of a table are the result set.  For an
    entity type whose synchronizer committed, in a run whose watermark is
    later than the updated_at of every row already in the table, a key has
    a row with is_deleted false at the end of the run exactly when the key
    was in the result set. *)
Theorem live_rows_are_observed (dir : Directory) (ts days : Z) (db : DB) :
  let db' := run dir ts days db in
  (∀ entries, foundRoles dir = Some entries → ¬ rolesFail entries db →
     (∀ k r, viz_roles db !! k = Some r → updated_at r < ts) →
     ∀ dn, (∃ r, viz_roles db' !! dn = Some r ∧ is_deleted r = false) ↔
           dn ∈ observed entries) ∧
  (∀ entries, foundResources dir = Some entries → ¬ rowsFail resourceAccepted entries →
     (∀ k r, viz_resources db !! k = Some r → updated_at r < ts) →
     ∀ dn, (∃ r, viz_resources db' !! dn = Some r ∧ is_deleted r = false) ↔
           dn ∈ observed entries) ∧
  (∀ entries, foundAssociations dir = Some entries → ¬ rowsFail assocAccepted entries →
     (∀ k r, viz_roles_resources db !! k = Some r → updated_at r < ts) →
     ∀ dn, (∃ r, viz_roles_resources db' !! dn = Some r ∧ is_deleted r = false) ↔
           dn ∈ observed entries).
Proof.
  intros db'. unfold db'. split; [|split].
  - intros entries Hfound Hok%rolesAccepted_true Hold dn.
    rewrite run_roles, Hfound, syncRoles_closed, Hok. simpl.
    by apply committed_table_live.
  - intros entries Hfound Hok%upsertsAccepted_true Hold dn.
    rewrite run_resources, Hfound, syncResources_closed, Hok. simpl.
    destruct (syncRoles_frame (foundRoles dir) ts db) as (-> & _).
    by apply committed_table_live.
  - intros entries Hfound Hok%upsertsAccepted_true Hold dn.
    rewrite run_associations, Hfound, syncAssociations_closed, Hok. simpl.
    destruct (syncResources_frame (foundResources dir) ts
                (syncRoles (foundRoles dir) ts db)) as (_ & _ & ->).
    destruct (syncRoles_frame (foundRoles dir) ts db) as (_ & ->).
    by apply committed_table_live.
Qed.

(** X18. The life of a role that leaves the directory.  A role is in the
    result set of a run at [ts1] that commits, and not in the result set
    of the next run, at a later [ts2], that commits too.  After the second
    run the row is gone when the store accepted the purge bound of that
    run and [ts1] is earlier than the bound; when the accepted bound is
    not later than [ts1], or the store refused the bound, the row is still
    there with the columns the first run gave it, updated_at [ts1] and
    is_deleted true. *)
Theorem role_leaving_directory (dir1 dir2 : Directory) (es1 es2 : list Entry)
    (ts1 ts2 days1 days2 : Z) (db : DB) (dn : string) :
  foundRoles dir1 = Some es1 → ¬ rolesFail es1 db → dn ∈ observed es1 →
  let db1 := run dir1 ts1 days1 db in
  foundRoles dir2 = Some es2 → ¬ rolesFail es2 db1 → dn ∉ observed es2 →
  ts1 < ts2 →
  let db2 := run dir2 ts2 days2 db1 in
  ∃ r1, viz_roles db1 !! dn = Some r1 ∧ updated_at r1 = ts1 ∧ is_deleted r1 = false ∧
        (∀ bound, purgeTimestamp ts2 days2 = Some bound → ts1 < bound →
           viz_roles db2 !! dn = None) ∧
        (∀ bound, purgeTimestamp ts2 days2 = Some bound → bound ≤ ts1 →
           viz_roles db2 !! dn = Some (mkRow (cols r1) (created_at r1) ts1 true)) ∧
        (purgeTimestamp ts2 days2 = None →
           viz_roles db2 !! dn = Some (mkRow (cols r1) (created_at r1) ts1 true)).
Proof.
  intros Hf1 Hok1%rolesAccepted_true Hobs db1 Hf2 Hok2%rolesAccepted_true Hnot Hlt db2.
  assert (∃ r1, viz_roles db1 !! dn = Some r1 ∧ updated_at r1 = ts1 ∧ is_deleted r1 = false)
    as (r1 & Hr1 & Hu1 & Hd1).
  { unfold db1. rewrite run_roles, Hf1, syncRoles_closed, Hok1. simpl.
    rewrite pass_lookup, upsertAll_lookup.
    destruct (lastWith dn es1) as [e|] eqn:Hl; [|by apply lastWith_None in Hl].
    simpl. rewrite purgedByPass_current by (simpl; first [done | lia]).
    unfold markRow. simpl. rewrite (bool_decide_false (ts1 < ts1)) by lia.
    by eexists. }
  exists r1. split; [done|]. split; [done|]. split; [done|]. clearbody db1.
  assert (viz_roles db2 !! dn =
          if purgedByPass ts2 (purgeTimestamp ts2 days2) r1
          then None else Some (markRow ts2 r1)) as Hr2.
  { unfold db2. rewrite run_roles, Hf2, syncRoles_closed, Hok2. simpl.
    rewrite pass_lookup, upsertAll_lookup.
    apply lastWith_None in Hnot. rewrite Hnot, Hr1. done. }
  assert (markRow ts2 r1 = mkRow (cols r1) (created_at r1) ts1 true) as Hm.
  { unfold markRow. rewrite Hu1. by rewrite bool_decide_true. }
  rewrite Hr2, Hm, purgedByPass_stale by lia. rewrite Hu1.
  split; [|split].
  - intros bound -> Hcmp. by rewrite bool_decide_true.
  - intros bound -> Hcmp. by rewrite bool_decide_false by lia.
  - by intros ->.
Qed.

(** The timestamps stay in order through one run. *)
Lemma run_stamped (dir : Directory) (ts ts' days : Z) (db : DB) :
  ts ≤ ts' → stamped ts db → stamped ts' (run dir ts' days db).
Proof.
  intros Hle (Hr & Hs & Ha). unfold stamped.
  rewrite run_roles, run_resources, run_associations.
  set (db1 := syncRoles (foundRoles dir) ts' db).
  set (db2 := syncResources (foundResources dir) ts' db1).
  assert (tableStamped ts (viz_resources db1)) as Hs1
    by (unfold db1; by destruct (syncRoles_frame (foundRoles dir) ts' db) as (-> & _)).
  assert (tableStamped ts (viz_roles_resources db2)) as Ha2.
  { unfold db2, db1.
    destruct (syncResources_frame (foundResources dir) ts'
                (syncRoles (foundRoles dir) ts' db)) as (_ & _ & ->).
    by destruct (syncRoles_frame (foundRoles dir) ts' db) as (_ & ->). }
  split; [|split]; apply pass_stamped.
  - unfold db1. destruct (foundRoles dir) as [es|]; [|by apply (tableStamped_mono ts)].
    rewrite syncRoles_closed. destruct (_ && _); [|by apply (tableStamped_mono ts)].
    by apply (upsertAll_stamped _ ts).
  - unfold db2. clearbody db1.
    destruct (foundResources dir) as [es|]; [|by apply (tableStamped_mono ts)].
    rewrite syncResources_closed.
    destruct (upsertsAccepted _ _); [|by apply (tableStamped_mono ts)].
    by apply (upsertAll_stamped _ ts).
  - clearbody db2.
    destruct (foundAssociations dir) as [es|]; [|by apply (tableStamped_mono ts)].
    rewrite syncAssociations_closed.
    destruct (upsertsAccepted _ _); [|by apply (tableStamped_mono ts)].
    by apply (upsertAll_stamped _ ts).
Qed.

Lemma emptyDB_stamped ts : stamped ts emptyDB.
Proof.
  unfold stamped, tableStamped. simpl.
  split; [|split]; intros dn r Hr; by rewrite lookup_empty in Hr.
Qed.

(** X19. What every sequence of runs keeps, with any search results,
    failures and retentions.  The foreign keys of viz_roles_parents: when
    both ends of every RoleParent pair are rows of viz_roles before, they
    are after; in particular in every store reached from the empty one.
    The order of the timestamps: when the watermarks of the runs do not go
    back and every row has created_at no later than updated_at and
    updated_at no later than the first watermark, then afterwards every row
    has created_at no later than updated_at and updated_at no later than
    the last watermark. *)
Theorem runs_keep_invariants (invs : list Invocation) (lo : Z) (db : DB) :
  (fk_ok db → fk_ok (runs invs db)) ∧
  fk_ok (runs invs emptyDB) ∧
  (stamped lo db → nondecreasing lo invs → stamped (lastTime lo invs) (runs invs db)) ∧
  (nondecreasing lo invs → stamped (lastTime lo invs) (runs invs emptyDB)).
Proof.
  assert (∀ db0, fk_ok db0 → fk_ok (runs invs db0)) as Hfk.
  { clear. induction invs as [|i rest IH]; intros db0 Hdb0; [done|].
    unfold runs. simpl. apply IH. by apply run_fk_ok. }
  assert (∀ lo0 db0, stamped lo0 db0 → nondecreasing lo0 invs →
                     stamped (lastTime lo0 invs) (runs invs db0)) as Hst.
  { clear. induction invs as [|i rest IH]; intros lo0 db0 Hdb0 Hnd; [done|].
    destruct Hnd as [Hle Hnd]. unfold runs, lastTime. simpl.
    apply (IH (invTime i)); [|done]. by apply (run_stamped _ lo0). }
  split; [apply Hfk|]. split.
  { apply Hfk. intros c p Hin. by apply not_elem_of_empty in Hin. }
  split; [apply Hst|]. apply Hst, emptyDB_stamped.
Qed.

End MoreRunFacts.

(** ** Configuration and entry point *)

(** [initConfig] ends the process exactly on a missing LDAP variable. *)
Lemma initConfig_None (p : Process) :
  initConfig p = None ↔
  getenv p "LDAP_HOST" = EmptyString ∨ getenv p "LDAP_USERNAME" = EmptyString ∨
  getenv p "LDAP_PASSWORD" = EmptyString.
Proof.
  unfold initConfig. cbn [LDAPHost LDAPUser LDAPPassword].
  destruct (_ || _) eqn:Hc.
  - split; [intros _|done]. rewrite !orb_true_iff, !String.eqb_eq in Hc. tauto.
  - split; [done|]. intros Hx. exfalso.
    assert (String.eqb (getenv p "LDAP_HOST") EmptyString
            || String.eqb (getenv p "LDAP_USERNAME") EmptyString
            || String.eqb (getenv p "LDAP_PASSWORD") EmptyString = true) as Ht
      by (rewrite !orb_true_iff, !String.eqb_eq; tauto).
    congruence.
Qed.

(** The variables that [initConfig] copies as they are. *)
Lemma initConfig_copied (p : Process) (cfg : config) :
  initConfig p = Some cfg →
  LDAPHost cfg = getenv p "LDAP_HOST" ∧ LDAPUser cfg = getenv p "LDAP_USERNAME" ∧
  LDAPPassword cfg = getenv p "LDAP_PASSWORD" ∧ DBHost cfg = getenv p "DB_HOST" ∧
  DBUser cfg = getenv p "DBUSER" ∧ DBPassword cfg = getenv p "DB_PASSWORD" ∧
  DryRun cfg = String.eqb (getenv p "DRY_RUN") "true".
Proof.
  unfold initConfig. destruct (_ || _); [done|]. by intros [= <-].
Qed.

(** X20. The configuration.  [initConfig] ends the process exactly when one
    of LDAP_HOST, LDAP_USERNAME, LDAP_PASSWORD is empty or not set.  The
    configuration it returns holds LDAP_HOST, LDAP_USERNAME, LDAP_PASSWORD,
    DB_HOST, DBUSER and DB_PASSWORD as they are in the environment (the
    three LDAP ones not empty); LDAP_PORT, DB_PORT and DB_DATABASE as they
    are when not empty, and 389, 5432 and idm_rolemanagement_prod in place
    of an empty one; the dry run is on only for the exact text true; and
    the retention is seven days when PURGE_AGE_IN_DAYS is not set or does
    not scan as an integer and the scanned integer otherwise, whatever
    its sign. *)
Theorem initConfig_result (p : Process) :
  (initConfig p = None ↔
     getenv p "LDAP_HOST" = EmptyString ∨ getenv p "LDAP_USERNAME" = EmptyString ∨
     getenv p "LDAP_PASSWORD" = EmptyString) ∧
  (∀ cfg, initConfig p = Some cfg →
     LDAPHost cfg ≠ EmptyString ∧ LDAPUser cfg ≠ EmptyString ∧
     LDAPPassword cfg ≠ EmptyString ∧
     LDAPHost cfg = getenv p "LDAP_HOST" ∧ LDAPUser cfg = getenv p "LDAP_USERNAME" ∧
     LDAPPassword cfg = getenv p "LDAP_PASSWORD" ∧ DBHost cfg = getenv p "DB_HOST" ∧
     DBUser cfg = getenv p "DBUSER" ∧ DBPassword cfg = getenv p "DB_PASSWORD" ∧
     LDAPPort cfg = (if String.eqb (getenv p "LDAP_PORT") EmptyString
                     then "389" else getenv p "LDAP_PORT") ∧
     DBPort cfg = (if String.eqb (getenv p "DB_PORT") EmptyString
                   then "5432" else getenv p "DB_PORT") ∧
     DBDatabase cfg = (if String.eqb (getenv p "DB_DATABASE") EmptyString
                       then "idm_rolemanagement_prod" else getenv p "DB_DATABASE") ∧
     LDAPPort cfg ≠ EmptyString ∧ DBPort cfg ≠ EmptyString ∧
     DBDatabase cfg ≠ EmptyString ∧
     (DryRun cfg = true ↔ getenv p "DRY_RUN" = "true") ∧
     (getenv p "PURGE_AGE_IN_DAYS" = EmptyString ∨
      Sscan p (getenv p "PURGE_AGE_IN_DAYS") = None → PurgeAgeInDays cfg = 7) ∧
     (∀ n, getenv p "PURGE_AGE_IN_DAYS" ≠ EmptyString →
           Sscan p (getenv p "PURGE_AGE_IN_DAYS") = Some n → PurgeAgeInDays cfg = n)).
Proof.
  split; [apply initConfig_None|]. intros cfg Hcfg.
  destruct (initConfig_copied p cfg Hcfg) as (Eh & Eu & Ep & Edh & Edu & Edp & Edry).
  assert (¬ (getenv p "LDAP_HOST" = EmptyString ∨ getenv p "LDAP_USERNAME" = EmptyString ∨
             getenv p "LDAP_PASSWORD" = EmptyString)) as Hset.
  { intros Hx%initConfig_None. congruence. }
  rewrite Eh, Eu, Ep.
  split; [tauto|]. split; [tauto|]. split; [tauto|].
  split; [done|]. split; [done|]. split; [done|].
  split; [done|]. split; [done|]. split; [done|].
  clear Eh Eu Ep Edh Edu Edp. revert Hcfg. unfold initConfig.
  destruct (_ || _); [done|]. intros [= <-]. cbn.
  split; [done|]. split; [done|]. split; [done|].
  split; [by destruct (String.eqb_spec (getenv p "LDAP_PORT") EmptyString)|].
  split; [by destruct (String.eqb_spec (getenv p "DB_PORT") EmptyString)|].
  split; [by destruct (String.eqb_spec (getenv p "DB_DATABASE") EmptyString)|].
  split; [apply String.eqb_eq|].
  destruct (String.eqb_spec (getenv p "PURGE_AGE_IN_DAYS") EmptyString) as [He|He].
  - split; [done|]. by intros n ?.
  - split.
    + intros [?|Hs]; [done|]. by rewrite Hs.
    + intros n _ Hs. by rewrite Hs.
Qed.

(** X21. When the store is written.  [main] changes the store only outside
    the dry run, with the three database variables and the three LDAP
    variables set and every connection step successful, and then the
    store it leaves is the one of a run with the configured retention.  In
    a dry run it never ends on a missing database variable and never
    changes the store. *)
Theorem main_writes_only_when_configured `{Externals}
    (p : Process) (dir : Directory) (now : Z) (db : DB) :
  (∀ db', main p dir now db = Finished db' → db' ≠ db →
     getenv p "DRY_RUN" ≠ "true" ∧
     getenv p "LDAP_HOST" ≠ EmptyString ∧ getenv p "LDAP_USERNAME" ≠ EmptyString ∧
     getenv p "LDAP_PASSWORD" ≠ EmptyString ∧
     getenv p "DB_HOST" ≠ EmptyString ∧ getenv p "DBUSER" ≠ EmptyString ∧
     getenv p "DB_PASSWORD" ≠ EmptyString ∧
     ldapDial p = true ∧ ldapBind p = true ∧ dbOpen p = true ∧ dbPing p = true ∧
     tablesCreated p = true ∧
     ∃ cfg, initConfig p = Some cfg ∧ db' = run dir now (PurgeAgeInDays cfg) db) ∧
  (getenv p "DRY_RUN" = "true" →
     main p dir now db =
     if String.eqb (getenv p "LDAP_HOST") EmptyString
        || String.eqb (getenv p "LDAP_USERNAME") EmptyString
        || String.eqb (getenv p "LDAP_PASSWORD") EmptyString
        || negb (ldapDial p) || negb (ldapBind p)
     then Fatal else Finished db).
Proof.
  pose proof (initConfig_None p) as Hnone. unfold main. split.
  - intros db'. destruct (initConfig p) as [cfg|] eqn:Hcfg; [|done].
    destruct (initConfig_copied p cfg Hcfg) as (Eh & Eu & Ep & Edh & Edu & Edp & Edry).
    assert (¬ (getenv p "LDAP_HOST" = EmptyString ∨
               getenv p "LDAP_USERNAME" = EmptyString ∨
               getenv p "LDAP_PASSWORD" = EmptyString)) as Hset.
    { intros Hx%Hnone. congruence. }
    rewrite Edh, Edu, Edp.
    destruct (DryRun cfg) eqn:Hd; simpl.
    + destruct (ldapDial p); simpl; [|done]. destruct (ldapBind p); simpl; [|done].
      by intros [= <-].
    + destruct (String.eqb_spec (getenv p "DB_HOST") EmptyString); [done|].
      destruct (String.eqb_spec (getenv p "DBUSER") EmptyString); [done|].
      destruct (String.eqb_spec (getenv p "DB_PASSWORD") EmptyString); [done|].
      simpl. destruct (ldapDial p); simpl; [|done]. destruct (ldapBind p); simpl; [|done].
      destruct (dbOpen p); simpl; [|done]. destruct (dbPing p); simpl; [|done].
      destruct (tablesCreated p); simpl; [|done]. intros [= <-] _.
      assert (getenv p "DRY_RUN" ≠ "true").
      { intros Ht. rewrite Ht in Edry. simpl in Edry. congruence. }
      split; [done|]. split; [tauto|]. split; [tauto|]. split; [tauto|].
      repeat (split; [done|]). by exists cfg.
  - intros Hdry. destruct (initConfig p) as [cfg|] eqn:Hcfg.
    + destruct (initConfig_copied p cfg Hcfg) as (_ & _ & _ & _ & _ & _ & Edry).
      rewrite Hdry in Edry. simpl in Edry. rewrite Edry. simpl.
      assert (String.eqb (getenv p "LDAP_HOST") EmptyString
              || String.eqb (getenv p "LDAP_USERNAME") EmptyString
              || String.eqb (getenv p "LDAP_PASSWORD") EmptyString = false) as ->.
      { revert Hcfg. unfold initConfig. cbn [LDAPHost LDAPUser LDAPPassword].
        by destruct (_ || _). }
      simpl. by destruct (ldapDial p), (ldapBind p).
    + pose proof (proj1 Hnone eq_refl) as Hmissing.
      replace (String.eqb (getenv p "LDAP_HOST") EmptyString
               || String.eqb (getenv p "LDAP_USERNAME") EmptyString
               || String.eqb (getenv p "LDAP_PASSWORD") EmptyString) with true; [done|].
      symmetry. rewrite !orb_true_iff, !String.eqb_eq. tauto.
Qed.

(** ** The further properties on the samples *)

Lemma rolesR1R2_accepted_empty :
  ¬ rolesFail (H := Demo.externals) [roleR1; roleR2] emptyDB.
Proof. intros Hf%rolesAccepted_false. vm_compute in Hf. discriminate. Qed.

Lemma rolesDouble_accepted :
  ¬ rolesFail (H := Demo.externals) [roleR1; roleR1again; roleR2] storeR1.
Proof. intros Hf%rolesAccepted_false. vm_compute in Hf. discriminate. Qed.

Lemma no_roles_accepted (db : DB) : ¬ rolesFail (H := Demo.externals) [] db.
Proof. intros (e & He & _). by apply elem_of_nil in He. Qed.

Lemma storeR1_stamped : stamped 900 storeR1.
Proof.
  unfold stamped, tableStamped, storeR1. simpl. split; [|split]; intros dn r.
  - intros [_ <-]%lookup_singleton_Some. unfold rowStamped. simpl. lia.
  - by rewrite lookup_empty.
  - by rewrite lookup_empty.
Qed.

(** X1 on the samples. *)
Lemma parseLocalizedAttributes_encode_witness :
  parseLocalizedAttributes (encodeLocalized localizedPairs)
  = list_to_map (rev localizedPairs) ∧
  parseLocalizedAttributes "en~Hello|de~Hallo|en~Hi" !! "en" = Some "Hi".
Proof.
  assert (parseLocalizedAttributes (encodeLocalized localizedPairs)
          = list_to_map (rev localizedPairs)) as Heq.
  { apply parseLocalizedAttributes_encode.
    repeat (constructor; [repeat split; reflexivity|]). constructor. }
  split; [exact Heq|]. change "en~Hello|de~Hallo|en~Hi" with (encodeLocalized localizedPairs).
  rewrite Heq. reflexivity.
Defined.

(** X4 on the samples. *)
Lemma decodeEntitlementRef_three_parts_witness :
  let r := decodeEntitlementRef (H := Demo.externals) entitlementText in
  SplitN entitlementText "#" 3 =
    [entitlementDriver r; entitlementStatus r; entitlementXML r] ∧
  entitlementDriver r = "drv" ∧ entitlementStatus r = "1" ∧
  entitlementXML r = "<ref><src>S</src><id>I</id><param>x#y</param></ref>" ∧
  entitlementXMLParamID r = "x#y".
Proof.
  assert (2 ≤ Count entitlementText "#")%nat as Hcount by (vm_compute; lia).
  destruct (decodeEntitlementRef_three_parts (H := Demo.externals) entitlementText Hcount)
    as (_ & _ & _ & Hparts & _).
  split; [exact Hparts|]. repeat split; reflexivity.
Defined.

(** X10 on the samples. *)
Lemma markAndPurge_no_retention_witness :
  viz_roles (markAndPurge (H := Demo.externals) storeOld passTime 0) !! "R2" = None.
Proof.
  destruct (markAndPurge_no_retention (H := Demo.externals) storeOld passTime 0 passTime)
    as (Hroles & _); [reflexivity | lia |].
  apply (Hroles "R2" (mkRow someCols 100 (passTime - 1 * day) false)).
  - vm_compute. reflexivity.
  - vm_compute. reflexivity.
Defined.

(** X11 on the samples. *)
Lemma syncRoles_replaces_parents_witness :
  ("R1", "R2") ∈ viz_roles_parents
                   (syncRoles (H := Demo.externals) (Some [roleR1; roleR2]) 1000 storeR1).
Proof.
  destruct (syncRoles_replaces_parents (H := Demo.externals) [roleR1; roleR2] 1000 storeR1
              rolesR1R2_accepted) as [Hiff _].
  apply Hiff. exists roleR1. split; [apply list_elem_of_here|].
  split; [reflexivity|]. vm_compute. apply list_elem_of_here.
Defined.

(** X13 on the samples. *)
Lemma synchronizers_last_entry_wins_witness :
  ∃ created,
    viz_roles (syncRoles (H := Demo.externals)
                 (Some [roleR1; roleR1again; roleR2]) 1000 storeR1) !! "R1"
    = Some (mkRow (roleCols (H := Demo.externals) roleR1again) created 1000 false).
Proof.
  destruct (synchronizers_last_entry_wins (H := Demo.externals)
              [roleR1] [roleR2] roleR1again 1000 storeR1) as (Hroles & _).
  - apply lastWith_None. reflexivity.
  - apply Hroles. exact rolesDouble_accepted.
Defined.

(** X15 on the samples. *)
Lemma synchronizers_order_independent_witness :
  syncRoles (H := Demo.externals) (Some [roleR1; roleR2]) 1000 storeR1 =
  syncRoles (H := Demo.externals) (Some [roleR2; roleR1]) 1000 storeR1.
Proof.
  destruct (synchronizers_order_independent (H := Demo.externals)
              [roleR1; roleR2] [roleR2; roleR1] 1000 storeR1) as (Hroles & _).
  - apply perm_swap.
  - simpl. apply NoDup_cons. split; [|apply NoDup_singleton].
    intros Hin%list_elem_of_singleton. discriminate.
  - exact Hroles.
Defined.

(** X16 on the samples. *)
Lemma run_without_role_commit_witness :
  viz_roles (run (H := Demo.externals) dirR1 1000 7 storeR1) =
  viz_roles (markAndPurge (H := Demo.externals) storeR1 1000 7).
Proof.
  destruct (run_without_role_commit (H := Demo.externals) dirR1 1000 7 storeR1)
    as (Hroles & _).
  - right. exists [roleR1]. split; [reflexivity | exact rolesR1_fail_storeR1].
  - exact Hroles.
Defined.

(** X18 on the samples. *)
Lemma role_leaving_directory_witness :
  ∃ r1, viz_roles (run (H := Demo.externals) dirAll 1000 7 emptyDB) !! "R2" = Some r1 ∧
        viz_roles (run (H := Demo.externals) dirNothing 2000 7
                     (run (H := Demo.externals) dirAll 1000 7 emptyDB)) !! "R2"
        = Some (mkRow (cols r1) (created_at r1) 1000 true).
Proof.
  destruct (role_leaving_directory (H := Demo.externals) dirAll dirNothing
              [roleR1; roleR2] [] 1000 2000 7 7 emptyDB "R2")
    as (r1 & Hr1 & _ & _ & _ & Hkept & _).
  - reflexivity.
  - exact rolesR1R2_accepted_empty.
  - apply (elem_of_observed roleR2). apply list_elem_of_further, list_elem_of_here.
  - reflexivity.
  - apply no_roles_accepted.
  - apply not_elem_of_empty.
  - lia.
  - exists r1. split; [exact Hr1|]. apply (Hkept (2000 - 7 * day)); [reflexivity | ].
    unfold day. lia.
Defined.

(** X19 on the samples. *)
Lemma runs_keep_invariants_witness :
  stamped 2000
    (runs (H := Demo.externals)
       [ {| invDirectory := dirAll; invTime := 1000; invDays := 7 |};
         {| invDirectory := dirNothing; invTime := 2000; invDays := 7 |} ] storeR1).
Proof.
  destruct (runs_keep_invariants (H := Demo.externals)
              [ {| invDirectory := dirAll; invTime := 1000; invDays := 7 |};
                {| invDirectory := dirNothing; invTime := 2000; invDays := 7 |} ]
              900 storeR1) as (_ & _ & Hst & _).
  apply Hst; [exact storeR1_stamped|]. simpl. lia.
Defined.
